(** * Steganography engine: a shallow embedding of [src/core/stegano_engine.py]
    and of the part of [src/core/crypto_manager.py] it calls.

    Conventions of the embedding.
    - Python [bytes] values are [list byte].
    - The bit strings the engine builds (Python [str] values made only of the
      characters '0' and '1') are [list bool]: ['1'] is [true], ['0'] is [false].
    - A numpy [uint8] array is its shape together with its row-major list of
      samples, each sample a [Z]; samples read from an image lie in [0,255].
    - Exceptions are values of [exn]; a call that can raise returns a [result].
    - Library calls ([zlib], [hashlib], AES-GCM, numpy's seeded permutation,
      PIL's mode conversion) are the fields of the class [Externals]; the
      clock and the random source are the fields of [world]. *)

From Stdlib Require Import ZArith Lia Strings.Byte.
From stdpp Require Import base numbers list strings gmap pretty.

Open Scope Z_scope.

(** ** Python values *)

Abbreviation bytes := (list byte).
Abbreviation bitstring := (list bool).

#[global] Instance byte_eq_dec : EqDecision byte := Byte.byte_eq_dec.

Inductive exn :=
  | FileNotFoundError
  | ValueError (msg : string)
  | ImportError
  | IndexError
  | struct_error
  | zlib_error.

Inductive result (A : Type) :=
  | Ok (a : A)
  | Raise (e : exn).
Arguments Ok {A} a.
Arguments Raise {A} e.

(** Sequencing of calls that can raise: the first exception propagates. *)
#[global] Instance result_ret : MRet result := λ A a, Ok a.
#[global] Instance result_bind : MBind result := λ A B k r,
  match r with
  | Ok a => k a
  | Raise e => Raise e
  end.

(** [l[i:j]] for [0 ≤ i ≤ j]: Python slices never raise. *)
Definition slice {A} (i j : nat) (l : list A) : list A := take (j - i) (drop i l).

Definition Z_of_byte (x : byte) : Z := Z.of_N (Byte.to_N x).

(** Storing an integer in a [bytes]/[bytearray] cell; every value stored by
    the engine is already in [0,255], the reduction is the width of the cell. *)
Definition byte_of_Z (z : Z) : byte :=
  default x00 (Byte.of_N (Z.to_N (z mod 256))).

(** [int.from_bytes(b, 'big')] *)
Definition int_from_bytes_big (b : bytes) : Z :=
  fold_left (λ acc x, 256 * acc + Z_of_byte x) b 0.

(** [v.to_bytes(n, 'big')] for [0 ≤ v < 256^n] *)
Fixpoint int_to_bytes_big (n : nat) (v : Z) : bytes :=
  match n with
  | O => []
  | S n' => int_to_bytes_big n' (v / 256) ++ [byte_of_Z v]
  end.

(** ** Bit strings *)

(** Binary digits of a positive number, most significant first. *)
Fixpoint pos_digits (p : positive) : bitstring :=
  match p with
  | xH => [true]
  | xO q => pos_digits q ++ [false]
  | xI q => pos_digits q ++ [true]
  end.

(** [format(v, 'b')] for [v ≥ 0].  Every value the engine formats is a byte
    or the result of [& ((1 << bits) - 1)], hence never negative. *)
Definition bin (v : Z) : bitstring :=
  match v with
  | Z0 => [false]
  | Zpos p => pos_digits p
  | Zneg _ => []
  end.

(** [format(v, f'0{w}b')]: zero-padded on the left to at least [w] digits. *)
Definition format_b (w : nat) (v : Z) : bitstring :=
  replicate (w - length (bin v)) false ++ bin v.

(** [int(s, 2)] *)
Definition int2 (s : bitstring) : Z :=
  fold_left (λ acc c, 2 * acc + Z.b2z c) s 0.

(** [s.ljust(w, '0')] *)
Definition ljust (w : nat) (s : bitstring) : bitstring :=
  s ++ replicate (w - length s) false.

(** [s.startswith(pat)] *)
Fixpoint startswith (pat s : bitstring) : bool :=
  match pat, s with
  | [], _ => true
  | _ :: _, [] => false
  | p :: pat', c :: s' => Bool.eqb p c && startswith pat' s'
  end.

(** [s.index(pat)] when [pat in s], [None] when [pat not in s]. *)
Fixpoint find_sub (pat s : bitstring) : option nat :=
  if startswith pat s then Some 0%nat
  else match s with
       | [] => None
       | _ :: s' => S <$> find_sub pat s'
       end.

(** ['1111111111111110'], the 16-bit end marker *)
Definition END_MARKER : bitstring :=
  [true; true; true; true; true; true; true; true;
   true; true; true; true; true; true; true; false].

(** [''.join(format(byte, '08b') for byte in data)] *)
Definition bits_of_bytes (data : bytes) : bitstring :=
  mjoin ((λ byte, format_b 8 (Z_of_byte byte)) <$> data).

(** [range(0, n, 8)] *)
Definition range8 (n : nat) : list nat :=
  (λ k, 8 * k)%nat <$> seq 0 ((n + 7) / 8)%nat.

(** The conversion loop shared by both extractors:
<<
    bytes_data = bytearray()
    for i in range(0, len(binary_data), 8):
        byte_str = binary_data[i:i+8]
        if len(byte_str) == 8:
            bytes_data.append(int(byte_str, 2))
>> *)
Definition to_bytes (binary_data : bitstring) : bytes :=
  fold_left
    (λ bytes_data i,
       let byte_str := slice i (i + 8) binary_data in
       if bool_decide (length byte_str = 8%nat)
       then bytes_data ++ [byte_of_Z (int2 byte_str)]
       else bytes_data)
    (range8 (length binary_data)) [].

(** ** The environment of the engine *)

(** A numpy array: [shape] and the samples in row-major order
    ([flatten()] returns a copy of them). *)
Record ndarray := { shape : list Z; flat : list Z }.

(** [img_array.size] *)
Definition size (a : ndarray) : Z := foldr Z.mul 1 (shape a).

(** What [np.array(Image.open(path))] builds: the sample count is the product
    of the dimensions, every sample is a [uint8]. *)
Definition wf_array (a : ndarray) : Prop :=
  Z.of_nat (length (flat a)) = size a ∧ Forall (λ v, 0 ≤ v < 256) (flat a).

(** [Image.open(path)]: the PIL mode and the sample array. *)
Record image := { mode : string; array : ndarray }.

Class Externals := {
  (** [zlib.compress(data, level=9)] *)
  zlib_compress : bytes → bytes;
  (** [zlib.decompress(data)], raising [zlib.error] *)
  zlib_decompress : bytes → result bytes;
  (** [hashlib.sha256(data).digest()] *)
  sha256_digest : bytes → bytes;
  (** [hashlib.pbkdf2_hmac('sha256', password, salt, iterations, length)] *)
  pbkdf2_hmac_sha256 : bytes → bytes → Z → Z → bytes;
  (** the module flag set by the import of PyCryptodome *)
  CRYPTO_AVAILABLE : bool;
  (** [AES.new(key, AES.MODE_GCM, iv).encrypt_and_digest(data)] *)
  gcm_encrypt_and_digest : bytes → bytes → bytes → bytes * bytes;
  (** [AES.new(key, AES.MODE_GCM, iv).decrypt_and_verify(ciphertext, tag)] *)
  gcm_decrypt_and_verify : bytes → bytes → bytes → bytes → result bytes;
  (** [np.random.RandomState(seed).permutation(n)] *)
  rng_permutation : Z → nat → list nat;
  (** [image.convert('RGB')] *)
  convert_RGB : image → image;
}.

(** The clock and the random source read during one call. *)
Record world := {
  (** [int(time.time())] *)
  time_time : Z;
  (** [get_random_bytes(n)] *)
  get_random_bytes : nat → bytes;
}.

(** What the libraries guarantee. *)
Definition zlib_inverse `{Externals} : Prop :=
  ∀ d, zlib_decompress (zlib_compress d) = Ok d.
Definition sha256_length `{Externals} : Prop :=
  ∀ d, length (sha256_digest d) = 32%nat.
Definition pbkdf2_length `{Externals} : Prop :=
  ∀ password salt iterations n,
    0 ≤ n → length (pbkdf2_hmac_sha256 password salt iterations n) = Z.to_nat n.
Definition gcm_inverse `{Externals} : Prop :=
  ∀ key iv d,
    length key = 32%nat → length iv = 12%nat →
    length (gcm_encrypt_and_digest key iv d).2 = 16%nat ∧
    gcm_decrypt_and_verify key iv (gcm_encrypt_and_digest key iv d).1
                                  (gcm_encrypt_and_digest key iv d).2 = Ok d.
Definition permutation_ok `{Externals} : Prop :=
  ∀ seed n, rng_permutation seed n ≡ₚ seq 0 n.
Definition random_length (w : world) : Prop :=
  ∀ n, length (get_random_bytes w n) = n.

(** [password.encode()] *)
Definition encode (password : string) : bytes := String.list_byte_of_string password.

(** ** [crypto_manager.py] *)
Section crypto_manager.
Context `{Externals}.

(** [CryptoManager.__init__] *)
Definition CryptoManager : result unit :=
  if CRYPTO_AVAILABLE then Ok () else Raise ImportError.

(** [b'steganoguard_salt_2024'] *)
Definition salt : bytes := encode "steganoguard_salt_2024".

Definition _derive_key (password : string) (key_length : Z) : bytes :=
  pbkdf2_hmac_sha256 (encode password) salt 100000 key_length.

Definition _encrypt_aes_gcm (w : world) (data key : bytes) : bytes :=
  let iv := get_random_bytes w 12 in
  let '(ciphertext, tag) := gcm_encrypt_and_digest key iv data in
  iv ++ tag ++ ciphertext.

Definition _decrypt_aes_gcm (encrypted_data key : bytes) : result bytes :=
  let iv := slice 0 12 encrypted_data in
  let tag := slice 12 28 encrypted_data in
  let ciphertext := drop 28 encrypted_data in
  match gcm_decrypt_and_verify key iv ciphertext tag with
  | Ok decrypted_data => Ok decrypted_data
  | Raise _ => Raise (ValueError "Decryption failed")
  end.

(** [encrypt] and [decrypt] with the default algorithm ['AES-256-GCM'], the
    only one the engine asks for.  The key is the 32-byte output of PBKDF2 and
    the nonce has 12 bytes, so that [AES.new] accepts both. *)
Definition encrypt (w : world) (data : bytes) (password : string) : bytes :=
  let key := _derive_key password 32 in
  _encrypt_aes_gcm w data key.

Definition decrypt (encrypted_data : bytes) (password : string) : result bytes :=
  let key := _derive_key password 32 in
  _decrypt_aes_gcm encrypted_data key.
End crypto_manager.

(** ** [stegano_engine.py] *)

(** The dictionaries [_process_extracted_data] returns as its second result,
    one constructor per shape:
    - [{'legacy_mode': True}]
    - [{'success': True, 'timestamp': …, 'original_size': …, 'encrypted': …,
        'compressed': …, 'integrity_verified': …, 'extraction_method': 'secure'}]
    - [{'legacy_mode': True, 'success': True}]
    - [{'success': False, 'error': str(e)}], the exception standing for its text. *)
Inductive extraction_info :=
  | info_legacy
  | info_secure (timestamp original_size : Z)
                (encrypted compressed integrity_verified : bool)
  | info_legacy_success
  | info_failure (error : exn).

(** The dictionary [header_data] of [_create_secure_header]. *)
Record header_data := {
  hd_magic : bytes;
  hd_timestamp : Z;
  hd_original_size : Z;
  hd_processed_size : Z;
  hd_encrypted : Z;
  hd_compressed : Z;
  hd_checksum : bytes;
}.

(** [b'STEGANO01'] *)
Definition MAGIC : bytes := [x53; x54; x45; x47; x41; x4e; x4f; x30; x31].

(** [struct.pack('>Q', v)], [struct.pack('>I', v)], [struct.pack('>B', v)]:
    [n] bytes, big-endian; [struct.error] when [v] is out of range. *)
Definition struct_pack (n : nat) (v : Z) : result bytes :=
  if bool_decide (0 ≤ v < 256 ^ Z.of_nat n) then Ok (int_to_bytes_big n v)
  else Raise struct_error.

(** [struct.unpack('>Q', b)[0]] and the like: [struct.error] unless [b] has
    exactly [n] bytes. *)
Definition struct_unpack (n : nat) (b : bytes) : result Z :=
  if bool_decide (length b = n) then Ok (int_from_bytes_big b)
  else Raise struct_error.

(** The lines under [# Pack header]. *)
Definition pack_header (h : header_data) : result bytes :=
  let header := hd_magic h in
  ts ← struct_pack 8 (hd_timestamp h);
  let header := header ++ ts in
  os ← struct_pack 4 (hd_original_size h);
  let header := header ++ os in
  ps ← struct_pack 4 (hd_processed_size h);
  let header := header ++ ps in
  en ← struct_pack 1 (hd_encrypted h);
  let header := header ++ en in
  co ← struct_pack 1 (hd_compressed h);
  let header := header ++ co in
  Ok (header ++ hd_checksum h).

(** The lines under [# Extract header fields], with the magic read just
    before them.  The caller has checked [len(extracted_bytes) >= 32]. *)
Definition unpack_header (extracted_bytes : bytes) : result header_data :=
  let magic := slice 0 9 extracted_bytes in
  timestamp ← struct_unpack 8 (slice 9 17 extracted_bytes);
  original_size ← struct_unpack 4 (slice 17 21 extracted_bytes);
  processed_size ← struct_unpack 4 (slice 21 25 extracted_bytes);
  encrypted ← struct_unpack 1 (slice 25 26 extracted_bytes);
  compressed ← struct_unpack 1 (slice 26 27 extracted_bytes);
  let checksum := slice 27 43 extracted_bytes in
  Ok {| hd_magic := magic; hd_timestamp := timestamp;
        hd_original_size := original_size; hd_processed_size := processed_size;
        hd_encrypted := encrypted; hd_compressed := compressed;
        hd_checksum := checksum |}.

(** The body shared by the loops of [_lsb_embed_secure] (over
    [range(len(flat_img))]) and [_lsb_random_embed] (over [indices]):
<<
    if data_index >= len(binary_data): break
    current_val = flat_img[idx]
    mask = (255 >> bits) << bits
    cleared_val = current_val & mask
    chunk = binary_data[data_index:data_index + bits]
    if chunk:
        new_lsb = int(chunk.ljust(bits, '0'), 2)
        new_val = cleared_val | new_lsb
        flat_img[idx] = new_val
    data_index += bits
>>
    Up to [bits = 8] the stored [new_val] is below 256 and fits the [uint8]
    sample; beyond that the store depends on the array library (it wraps or
    raises [OverflowError]), so the definition is that of the code for [bits]
    up to 8. *)
Fixpoint embed_loop (bits : nat) (binary_data : bitstring) (indices : list nat)
    (flat_img : list Z) (data_index : nat) : result (list Z) :=
  match indices with
  | [] => Ok flat_img
  | idx :: indices' =>
      if bool_decide (length binary_data ≤ data_index)%nat then Ok flat_img
      else
        match flat_img !! idx with
        | None => Raise IndexError
        | Some current_val =>
            let mask := Z.shiftl (Z.shiftr 255 (Z.of_nat bits)) (Z.of_nat bits) in
            let cleared_val := Z.land current_val mask in
            let chunk := slice data_index (data_index + bits) binary_data in
            let flat_img' :=
              match chunk with
              | [] => flat_img
              | _ :: _ =>
                  let new_lsb := int2 (ljust bits chunk) in
                  let new_val := Z.lor cleared_val new_lsb in
                  <[idx := new_val]> flat_img
              end in
            embed_loop bits binary_data indices' flat_img' (data_index + bits)
        end
  end.

(** [flat_img.reshape(img_array.shape)] *)
Definition reshape (flat_img : list Z) (img_array : ndarray) : ndarray :=
  {| shape := shape img_array; flat := flat_img |}.

Definition _lsb_embed_secure (img_array : ndarray) (data : bytes) (bits : nat)
    : result ndarray :=
  let binary_data := bits_of_bytes data in
  let binary_data := binary_data ++ END_MARKER in
  let flat_img := flat img_array in
  let required_bits := length binary_data in
  let available_bits := (length flat_img * bits)%nat in
  if bool_decide (available_bits < required_bits)%nat
  then Raise (ValueError "Insufficient capacity") (* the text goes on with both counts *)
  else
    flat_img' ← embed_loop bits binary_data (seq 0 (length flat_img)) flat_img 0;
    Ok (reshape flat_img' img_array).

(** The low [bits] bits of one sample, as the extractors format them:
    [format(pixel & ((1 << bits) - 1), f'0{bits}b')].  The mask fits a
    [uint8] up to [bits = 8]; beyond that the operation on a [uint8] sample
    depends on the array library (it promotes or raises [OverflowError]), so
    the definition is that of the code for [bits] up to 8. *)
Definition lsb_string (bits : nat) (pixel : Z) : bitstring :=
  let lsb_bits := Z.land pixel (Z.shiftl 1 (Z.of_nat bits) - 1) in
  format_b bits lsb_bits.

(** The lines under [# Find end marker]. *)
Definition cut_at_marker (binary_data : bitstring) : bitstring :=
  match find_sub END_MARKER binary_data with
  | Some i => take i binary_data
  | None => binary_data
  end.

Definition _lsb_extract_secure (img_array : ndarray) (bits : nat) : bytes :=
  let flat_img := flat img_array in
  let binary_data :=
    fold_left (λ binary_data pixel, binary_data ++ lsb_string bits pixel) flat_img [] in
  let binary_data := cut_at_marker binary_data in
  to_bytes binary_data.

Section engine.
Context `{Externals}.

(** [int.from_bytes(hashlib.sha256(password.encode()).digest()[:4], 'big')] *)
Definition seed_of (password : string) : Z :=
  int_from_bytes_big (take 4 (sha256_digest (encode password))).

Definition _lsb_random_embed (img_array : ndarray) (data : bytes) (bits : nat)
    (password : string) : result ndarray :=
  let flat_img := flat img_array in
  let indices := rng_permutation (seed_of password) (length flat_img) in
  let binary_data := bits_of_bytes data in
  let binary_data := binary_data ++ END_MARKER in
  flat_img' ← embed_loop bits binary_data indices flat_img 0;
  Ok (reshape flat_img' img_array).

(** The loop [for pos, idx in enumerate(indices)] of [_lsb_random_extract]:
    [binary_data[idx] = format(flat_img[idx] & …)]. *)
Fixpoint random_extract_loop (bits : nat) (flat_img : list Z) (indices : list nat)
    (binary_data : list bitstring) : result (list bitstring) :=
  match indices with
  | [] => Ok binary_data
  | idx :: indices' =>
      match flat_img !! idx with
      | None => Raise IndexError
      | Some pixel =>
          if bool_decide (idx < length binary_data)%nat
          then random_extract_loop bits flat_img indices'
                 (<[idx := lsb_string bits pixel]> binary_data)
          else Raise IndexError
      end
  end.

Definition _lsb_random_extract (img_array : ndarray) (bits : nat)
    (password : string) : result bytes :=
  let flat_img := flat img_array in
  let indices := rng_permutation (seed_of password) (length flat_img) in
  let binary_data := replicate (length flat_img) [] in
  binary_data ← random_extract_loop bits flat_img indices binary_data;
  let full_binary := mjoin binary_data in
  let full_binary := cut_at_marker full_binary in
  Ok (to_bytes full_binary).

Definition _create_secure_header (w : world) (original_data processed_data : bytes)
    (encrypted : bool) : result bytes :=
  pack_header
    {| hd_magic := MAGIC;
       hd_timestamp := time_time w;
       hd_original_size := Z.of_nat (length original_data);
       hd_processed_size := Z.of_nat (length processed_data);
       hd_encrypted := if encrypted then 1 else 0;
       hd_compressed := 1;
       hd_checksum := take 16 (sha256_digest original_data) |}.

(** [bool(password)] *)
Definition nonempty (password : string) : bool := bool_decide (password ≠ "").

Definition _prepare_data_with_security (w : world) (data : bytes) (password : string)
    : result bytes :=
  let compressed_data := zlib_compress data in
  compressed_data ←
    (if nonempty password
     then _ ← CryptoManager; Ok (encrypt w compressed_data password)
     else Ok compressed_data);
  header ← _create_secure_header w data compressed_data (nonempty password);
  Ok (header ++ compressed_data).

(** The [try] block of [_process_extracted_data]. *)
Definition process_try (extracted_bytes : bytes) (password : string)
    : result (bytes * extraction_info) :=
  if bool_decide (length extracted_bytes < 32)%nat
  then Ok (extracted_bytes, info_legacy)
  else
    let magic := slice 0 9 extracted_bytes in
    if bool_decide (magic ≠ MAGIC) then Ok (extracted_bytes, info_legacy)
    else
      h ← unpack_header extracted_bytes;
      let data_part :=
        slice 43 (43 + Z.to_nat (hd_processed_size h)) extracted_bytes in
      data_part ←
        (if bool_decide (hd_encrypted h ≠ 0) && nonempty password
         then _ ← CryptoManager; decrypt data_part password
         else Ok data_part);
      data_part ←
        (if bool_decide (hd_compressed h ≠ 0) then zlib_decompress data_part
         else Ok data_part);
      let calculated_checksum := take 16 (sha256_digest data_part) in
      let integrity_ok := bool_decide (hd_checksum h = calculated_checksum) in
      Ok (data_part,
          info_secure (hd_timestamp h) (hd_original_size h)
            (bool_decide (hd_encrypted h ≠ 0))
            (bool_decide (hd_compressed h ≠ 0)) integrity_ok).

(** [_process_extracted_data]: the [try] block and its two handlers. *)
Definition _process_extracted_data (extracted_bytes : bytes) (password : string)
    : bytes * extraction_info :=
  match process_try extracted_bytes password with
  | Ok r => r
  | Raise e =>
      match zlib_decompress extracted_bytes with
      | Ok decompressed => (decompressed, info_legacy_success)
      | Raise _ => (extracted_bytes, info_failure e)
      end
  end.

(** [try: body] followed by [except Exception as e: handler] (or by a bare
    [except:]).  Every exception of [exn] is an instance of [Exception], so
    the handler sees all of them; what the handler itself raises passes. *)
Definition try_except {A} (body : result A) (handler : exn → result A) : result A :=
  match body with
  | Ok a => Ok a
  | Raise e => handler e
  end.

(** [_process_extracted_data] with its handlers written as handlers: the
    [try] block, the [except Exception as e] around it and, inside that
    handler, the second [try] with its bare [except].  An exception that
    left the function would show here as [Raise]. *)
Definition _process_extracted_data_result (extracted_bytes : bytes) (password : string)
    : result (bytes * extraction_info) :=
  try_except (process_try extracted_bytes password) (λ e,
    try_except (decompressed ← zlib_decompress extracted_bytes;
                Ok (decompressed, info_legacy_success))
               (λ _, Ok (extracted_bytes, info_failure e))).
End engine.

Section engine_api.
Context `{Externals}.

(** [_validate_inputs]; [file] is what [image_path] names, [None] when
    [os.path.exists(image_path)] is false. *)
Definition _validate_inputs (file : option image) (data : bytes) (bits : nat)
    : result unit :=
  match file with
  | None => Raise FileNotFoundError
  | Some _ =>
      if bool_decide (bits ∉ [1; 2; 3; 4]%nat)
      then Raise (ValueError "Bits must be between 1 and 4")
      else if bool_decide (length data = 0%nat)
      then Raise (ValueError "Data cannot be empty")
      else Ok ()
  end.

(** The lines under [# Load and prepare image] of [embed_data_secure]. *)
Definition load_image (image : image) : ndarray :=
  let image :=
    if bool_decide (mode image ∉ ["RGB"; "RGBA"]) then convert_RGB image
    else image in
  array image.

(** [embed_data_secure], first component of its result.  The second one, the
    dictionary of [_generate_metadata], is built from file statistics and
    formatted floating-point ratios after the array is final and is left out. *)
Definition embed_data_secure (w : world) (file : option image) (data : bytes)
    (password : string) (bits : nat) (technique : string) : result ndarray :=
  _ ← _validate_inputs file data bits;
  match file with
  | None => Raise FileNotFoundError
  | Some image =>
      let img_array := load_image image in
      processed_data ← _prepare_data_with_security w data password;
      if bool_decide (technique = "LSB")
      then _lsb_embed_secure img_array processed_data bits
      else if bool_decide (technique = "LSB_RANDOM")
      then _lsb_random_embed img_array processed_data bits password
      else _lsb_embed_secure img_array processed_data bits
  end.

Definition extract_data_secure (file : option image) (password : string)
    (bits : nat) (technique : string) : result (bytes * extraction_info) :=
  match file with
  | None => Raise FileNotFoundError
  | Some image =>
      let img_array := array image in
      extracted_bytes ←
        (if bool_decide (technique = "LSB_RANDOM")
         then _lsb_random_extract img_array bits password
         else Ok (_lsb_extract_secure img_array bits));
      Ok (_process_extracted_data extracted_bytes password)
  end.
End engine_api.

(** One entry of ['capacity_analysis']; the ['kilobytes'] and ['megabytes']
    entries are rounded floating-point renderings of ['bytes'] and are left out. *)
Record capacity_entry := { ce_bytes : Z; ce_bits_used : Z }.

(** The dictionary [analyze_capacity] returns. *)
Record analysis := {
  an_dimensions : list Z;
  an_total_pixels : Z;
  an_channels : Z;
  an_mode : string;
  capacity_analysis : gmap string capacity_entry;
  security_recommendations : list string;
}.

(** [f'{bit_depth}_bit_lsb'] *)
Definition capacity_key (bit_depth : Z) : string := pretty bit_depth +:+ "_bit_lsb".

(** [arr[i]] on a shape tuple *)
Definition index (l : list Z) (i : nat) : result Z :=
  match l !! i with
  | Some v => Ok v
  | None => Raise IndexError
  end.

Definition analyze_capacity (image : image) : result analysis :=
  let img_array := array image in
  let channels :=
    if bool_decide (2 < length (shape img_array))%nat
    then default 1 (shape img_array !! 2%nat) else 1 in
  let capacity :=
    foldl (λ (acc : gmap string capacity_entry) bit_depth,
             let capacity_bits := size img_array * bit_depth in
             let capacity_bytes := (capacity_bits - 256) `div` 8 in
             <[capacity_key bit_depth :=
                 {| ce_bytes := capacity_bytes; ce_bits_used := bit_depth |}]> acc)
          ∅ [1; 2; 3; 4] in
  height ← index (shape img_array) 0;
  width ← index (shape img_array) 1;
  let recommendations :=
    if bool_decide (1000000 < height * width)
    then ["Use 1-2 bit LSB for better stealth in large images"]
    else ["Use 2-4 bit LSB for optimal capacity in small images"] in
  Ok {| an_dimensions := shape img_array;
        an_total_pixels := size img_array;
        an_channels := channels;
        an_mode := mode image;
        capacity_analysis := capacity;
        security_recommendations := recommendations |}.

(** ** A small instance of the libraries

    Stand-ins that satisfy the guarantees above, used to run the engine on
    concrete inputs: compression prefixes one byte, the digest is the first 32
    bytes of the zero-padded input, the cipher reverses the plaintext and tags
    it with the key, the permutation is the reversal of the indices, the mode
    conversion triples every sample. *)
Definition toy_decompress (d : bytes) : result bytes :=
  match d with
  | x78 :: d' => Ok d'
  | _ => Raise zlib_error
  end.

Definition toy_tag (key : bytes) : bytes := take 16 (key ++ replicate 16 x00).

Definition toy_gcm_decrypt (key iv ciphertext tag : bytes) : result bytes :=
  if bool_decide (tag = toy_tag key) then Ok (reverse ciphertext)
  else Raise (ValueError "MAC check failed").

Definition toy : Externals := {|
  zlib_compress d := x78 :: d;
  zlib_decompress := toy_decompress;
  sha256_digest d := take 32 (d ++ replicate 32 x00);
  pbkdf2_hmac_sha256 password salt iterations n :=
    take (Z.to_nat n) (password ++ replicate (Z.to_nat n) x00);
  CRYPTO_AVAILABLE := true;
  gcm_encrypt_and_digest key iv d := (reverse d, toy_tag key);
  gcm_decrypt_and_verify := toy_gcm_decrypt;
  rng_permutation seed n := reverse (seq 0 n);
  convert_RGB im :=
    {| mode := "RGB";
       array := {| shape := shape (array im) ++ [3];
                   flat := flat (array im) ≫= (λ v, [v; v; v]) |} |};
|}.

(** A clock reading [t] and a random source that returns zero bytes. *)
Definition toy_world (t : Z) : world :=
  {| time_time := t; get_random_bytes n := replicate n x00 |}.

(** An RGB image of one row of [n] pixels, every sample [v]. *)
Definition flat_image (n : nat) (v : Z) : image :=
  {| mode := "RGB";
     array := {| shape := [1; Z.of_nat n; 3]; flat := replicate (3 * n) v |} |}.

(** ** Auxiliary definitions for the proofs *)

(** What one iteration of the embedding loop stores in a visited sample. *)
Definition write_lsb (bits : nat) (current_val : Z) (chunk : bitstring) : Z :=
  Z.lor (Z.land current_val (Z.shiftl (Z.shiftr 255 (Z.of_nat bits)) (Z.of_nat bits)))
        (int2 (ljust bits chunk)).

(** The fields of a header, in the ranges their encodings hold. *)
Definition header_ok (h : header_data) : Prop :=
  length (hd_magic h) = 9%nat ∧
  0 ≤ hd_timestamp h < 2 ^ 64 ∧
  0 ≤ hd_original_size h < 2 ^ 32 ∧
  0 ≤ hd_processed_size h < 2 ^ 32 ∧
  0 ≤ hd_encrypted h < 256 ∧
  0 ≤ hd_compressed h < 256 ∧
  length (hd_checksum h) = 16%nat.

(** The sequential embedding loop as a recursion on the buffer: consume
    [bits] bits of the stream per sample until the stream is empty. *)
Fixpoint embed_stream (bits : nat) (stream : bitstring) (buf : list Z) : list Z :=
  match buf with
  | [] => []
  | v :: buf' =>
      match stream with
      | [] => buf
      | _ :: _ => write_lsb bits v (take bits stream) :: embed_stream bits (drop bits stream) buf'
      end
  end.

(** The low bits of the samples read in visiting order: what the embedding
    loop leaves behind along [indices]. *)
Definition read_back (bits : nat) (indices : list nat) (flat_img : list Z) : bitstring :=
  indices ≫= (λ idx, lsb_string bits (flat_img !!! idx)).

(** ** The extractor in the specification's words

    "For each visited sample, append its low [bitDepth] bits"; "truncate the
    bitstream at the marker's start"; "convert the truncated bitstream into
    bytes, 8 bits at a time, most-significant-bit first; discard any trailing
    partial byte"; "if the marker is never found, the entire buffer is
    converted". *)

(** The low [b] bits of a sample, most significant first. *)
Definition low_bits (b : nat) (v : Z) : bitstring :=
  (λ i, Z.testbit v (Z.of_nat i)) <$> reverse (seq 0 b).

Definition spec_bitstream (b : nat) (buf : list Z) : bitstring :=
  buf ≫= low_bits b.

(** [pat] occurs in [s] as a contiguous run starting at position [i]. *)
Definition occurs_at (pat s : bitstring) (i : nat) : Prop :=
  take (length pat) (drop i s) = pat.

(** [n] is where the bit stream [s] is cut: the start of the first occurrence
    of the end marker, or the end of [s] when the marker never occurs. *)
Definition marker_cut (s : bitstring) (n : nat) : Prop :=
  (occurs_at END_MARKER s n ∧ ∀ j, (j < n)%nat → ¬ occurs_at END_MARKER s j) ∨
  (n = length s ∧ ∀ j, ¬ occurs_at END_MARKER s j).

(** Eight bits at a time, most significant first; a trailing run of fewer
    than eight bits is dropped. *)
Fixpoint spec_bytes (s : bitstring) : bytes :=
  match s with
  | b7 :: b6 :: b5 :: b4 :: b3 :: b2 :: b1 :: b0 :: s' =>
      Byte.of_bits (b0, (b1, (b2, (b3, (b4, (b5, (b6, b7))))))) :: spec_bytes s'
  | _ => []
  end.

(** ** [crypto_manager.py]: the CBC mode, the choice of algorithm, passwords *)

(** The library calls of the CBC mode; [AES.block_size] is 16. *)
Class CbcExternals := {
  (** [pad(data, AES.block_size)] *)
  Padding_pad : bytes → bytes;
  (** [unpad(data, AES.block_size)], raising [ValueError] *)
  Padding_unpad : bytes → result bytes;
  (** [AES.new(key, AES.MODE_CBC, iv).encrypt(padded_data)] *)
  cbc_encrypt : bytes → bytes → bytes → bytes;
  (** [AES.new(key, AES.MODE_CBC, iv).decrypt(ciphertext)] *)
  cbc_decrypt : bytes → bytes → bytes → result bytes;
}.

(** What the library guarantees under a 32-byte key and a 16-byte IV. *)
Definition cbc_inverse `{CbcExternals} : Prop :=
  ∀ key iv d,
    length key = 32%nat → length iv = 16%nat →
    cbc_decrypt key iv (cbc_encrypt key iv (Padding_pad d)) = Ok (Padding_pad d) ∧
    Padding_unpad (Padding_pad d) = Ok d.

Section crypto_manager_cbc.
Context `{Externals} `{CbcExternals}.

Definition _encrypt_aes_cbc (w : world) (data key : bytes) : bytes :=
  let iv := get_random_bytes w 16 in
  let padded_data := Padding_pad data in
  let ciphertext := cbc_encrypt key iv padded_data in
  iv ++ ciphertext.

Definition _decrypt_aes_cbc (encrypted_data key : bytes) : result bytes :=
  let iv := slice 0 16 encrypted_data in
  let ciphertext := drop 16 encrypted_data in
  match cbc_decrypt key iv ciphertext ≫= Padding_unpad with
  | Ok decrypted_data => Ok decrypted_data
  | Raise _ => Raise (ValueError "Decryption failed")
  end.

(** [encrypt(data, password, algorithm)] *)
Definition encrypt_with (w : world) (data : bytes) (password algorithm : string)
    : bytes :=
  let key := _derive_key password 32 in
  if bool_decide (algorithm = "AES-256-GCM") then _encrypt_aes_gcm w data key
  else _encrypt_aes_cbc w data key.

(** [decrypt(encrypted_data, password, algorithm)] *)
Definition decrypt_with (encrypted_data : bytes) (password algorithm : string)
    : result bytes :=
  let key := _derive_key password 32 in
  if bool_decide (algorithm = "AES-256-GCM") then _decrypt_aes_gcm encrypted_data key
  else _decrypt_aes_cbc encrypted_data key.
End crypto_manager_cbc.

(** [string.ascii_letters + string.digits + "!@#$%^&*"] *)
Definition alphabet : string :=
  "abcdefghijklmnopqrstuvwxyzABCDEFGHIJKLMNOPQRSTUVWXYZ0123456789!@#$%^&*".

(** [generate_secure_password(length)]: [length] calls of
    [secrets.choice(alphabet)], the [k]-th of which returns
    [secrets_choice k alphabet]; [range(length)] is empty for [length ≤ 0]. *)
Definition generate_secure_password (secrets_choice : nat → list Ascii.ascii → Ascii.ascii)
    (length : Z) : string :=
  String.string_of_list_ascii
    ((λ k, secrets_choice k (String.list_ascii_of_string alphabet)) <$> seq 0 (Z.to_nat length)).

(** [secrets.choice] returns an element of a non-empty sequence. *)
Definition choice_ok (secrets_choice : nat → list Ascii.ascii → Ascii.ascii) : Prop :=
  ∀ k l, l ≠ [] → secrets_choice k l ∈ l.

(** ** [validators.py] *)

(** [len(s)] for a Python [str] held as its UTF-8 encoding (as [encode]
    reads it): the bytes that do not continue a character. *)
Definition py_len (s : string) : nat :=
  length (filter (λ b, ¬ (128 ≤ Z_of_byte b < 192)) (encode s)).

(** [Validators.validate_password]; [confirm_password] is [None] by default. *)
Definition validate_password (password : string) (confirm_password : option string)
    : bool * string :=
  if bool_decide (password = "") then (true, "")
  else if bool_decide (py_len password < 4)%nat
  then (false, "Password must be at least 4 characters")
  else if bool_decide (100 < py_len password)%nat
  then (false, "Password too long")
  else
    match confirm_password with
    | Some confirm =>
        if bool_decide (password ≠ confirm) then (false, "Passwords do not match")
        else (true, "Password is valid")
    | None => (true, "Password is valid")
    end.

(** [Validators.validate_lsb_bits] on an [int]; any other type is answered
    [(False, "Bits must be an integer")] by the [isinstance] test. *)
Definition validate_lsb_bits (bits : Z) : bool * string :=
  if bool_decide (bits < 1 ∨ 4 < bits) then (false, "Bits must be between 1 and 4")
  else (true, "Bits value is valid").

(** Stand-ins for the CBC calls: padding appends one byte, the cipher
    reverses. *)
Definition toy_unpad (d : bytes) : result bytes :=
  match reverse d with
  | x01 :: d' => Ok (reverse d')
  | _ => Raise (ValueError "Padding is incorrect.")
  end.

Definition toy_cbc : CbcExternals := {|
  Padding_pad d := d ++ [x01];
  Padding_unpad := toy_unpad;
  cbc_encrypt key iv d := reverse d;
  cbc_decrypt key iv d := Ok (reverse d);
|}.

(** A random choice that walks through the sequence. *)
Definition toy_choice (k : nat) (l : list Ascii.ascii) : Ascii.ascii :=
  default Ascii.zero (l !! (k `mod` length l)%nat).

(** A sample and what an embed made of it: the bits above the low [b] ones
    agree and the result is a [uint8]. *)
Definition lsb_changed (b : nat) (v v' : Z) : Prop :=
  Z.shiftr v' (Z.of_nat b) = Z.shiftr v (Z.of_nat b) ∧ 0 ≤ v' < 256.

(** * The model on small inputs *)

Example format_b_A :
  format_b 8 65 = [false; true; false; false; false; false; false; true].
Proof. reflexivity. Qed.

Example to_bytes_A : to_bytes (format_b 8 65 ++ [true; false; true]) = [x41].
Proof. reflexivity. Qed.

Example find_sub_second : find_sub END_MARKER (false :: END_MARKER ++ END_MARKER) = Some 1%nat.
Proof. reflexivity. Qed.

Example embed_one_byte :
  _lsb_embed_secure {| shape := [2; 2; 3]; flat := replicate 12 255 |} [x41] 2
  = Ok {| shape := [2; 2; 3];
          flat := [253; 252; 252; 253; 255; 255; 255; 255; 255; 255; 255; 254] |}.
Proof. reflexivity. Qed.

Example extract_one_byte :
  _lsb_extract_secure
    {| shape := [2; 2; 3];
       flat := [253; 252; 252; 253; 255; 255; 255; 255; 255; 255; 255; 254] |} 2
  = [x41].
Proof. reflexivity. Qed.

Example extract_marker_at_1 :
  find_sub END_MARKER
    (spec_bitstream 2 [253; 255; 255; 255; 255; 255; 255; 255; 252]) = Some 1%nat.
Proof. reflexivity. Qed.

(** * Bit strings and numbers *)

Lemma int2_fold (s : bitstring) (a : Z) :
  fold_left (λ acc c, 2 * acc + Z.b2z c) s a = a * 2 ^ Z.of_nat (length s) + int2 s.
Proof.
  unfold int2. revert a. induction s as [|c s IH]; intros a; simpl.
  - lia.
  - rewrite IH, (IH (2 * 0 + Z.b2z c)).
    rewrite Nat2Z.inj_succ, Z.pow_succ_r by lia. ring.
Qed.

Lemma int2_cons (c : bool) (s : bitstring) :
  int2 (c :: s) = Z.b2z c * 2 ^ Z.of_nat (length s) + int2 s.
Proof. unfold int2 at 1. simpl. rewrite int2_fold. ring. Qed.

Lemma int2_snoc (s : bitstring) (c : bool) : int2 (s ++ [c]) = 2 * int2 s + Z.b2z c.
Proof. unfold int2. by rewrite fold_left_app. Qed.

Lemma int2_bounds (s : bitstring) : 0 ≤ int2 s < 2 ^ Z.of_nat (length s).
Proof.
  induction s as [|c s IH].
  - by compute.
  - rewrite int2_cons. simpl length. rewrite Nat2Z.inj_succ, Z.pow_succ_r by lia.
    destruct c; simpl Z.b2z; lia.
Qed.

Lemma int2_inj (s t : bitstring) :
  length s = length t → int2 s = int2 t → s = t.
Proof.
  revert t. induction s as [|c s IH]; intros [|d t] Hlen Heq; try done.
  simpl in Hlen. injection Hlen as Hlen.
  rewrite !int2_cons, Hlen in Heq.
  pose proof (int2_bounds s) as Hs. pose proof (int2_bounds t) as Ht.
  rewrite Hlen in Hs.
  assert (c = d) as -> by (destruct c, d; simpl Z.b2z in Heq; try done; lia).
  f_equal. apply IH; [done | lia].
Qed.

Lemma int2_replicate_false (k : nat) (s : bitstring) :
  int2 (replicate k false ++ s) = int2 s.
Proof.
  induction k as [|k IH]; [done|]. simpl. rewrite int2_cons, IH. simpl. lia.
Qed.

Lemma int2_pos_digits (p : positive) : int2 (pos_digits p) = Z.pos p.
Proof.
  induction p as [p IH|p IH|]; simpl; [| |done];
    rewrite int2_snoc, IH; simpl; lia.
Qed.

Lemma int2_bin (v : Z) : 0 ≤ v → int2 (bin v) = v.
Proof. destruct v; [done| |lia]. intros _. apply int2_pos_digits. Qed.

Lemma int2_format_b (w : nat) (v : Z) : 0 ≤ v → int2 (format_b w v) = v.
Proof. intros Hv. unfold format_b. by rewrite int2_replicate_false, int2_bin. Qed.

Lemma length_pos_digits (p : positive) (w : nat) :
  Z.pos p < 2 ^ Z.of_nat w → (length (pos_digits p) ≤ w)%nat.
Proof.
  revert w. induction p as [p IH|p IH|]; intros w Hw; simpl.
  - destruct w as [|w]; [simpl in Hw; lia|].
    rewrite length_app. simpl. specialize (IH w).
    rewrite Nat2Z.inj_succ, Z.pow_succ_r in Hw by lia. lia.
  - destruct w as [|w]; [simpl in Hw; lia|].
    rewrite length_app. simpl. specialize (IH w).
    rewrite Nat2Z.inj_succ, Z.pow_succ_r in Hw by lia. lia.
  - destruct w as [|w]; [simpl in Hw; lia|]. lia.
Qed.

Lemma length_format_b (w : nat) (v : Z) :
  (1 ≤ w)%nat → 0 ≤ v < 2 ^ Z.of_nat w → length (format_b w v) = w.
Proof.
  intros Hw [Hv0 Hv]. unfold format_b. rewrite length_app, length_replicate.
  assert (length (bin v) ≤ w)%nat; [|lia].
  destruct v as [|p|p]; simpl; [lia| |lia]. by apply length_pos_digits.
Qed.

(** [format] undoes [int] on a string of the requested width. *)
Lemma format_b_int2 (c : bitstring) :
  c ≠ [] → format_b (length c) (int2 c) = c.
Proof.
  intros Hc. pose proof (int2_bounds c) as Hb.
  assert (1 ≤ length c)%nat by (destruct c; [done | simpl; lia]).
  apply int2_inj.
  - by apply length_format_b.
  - apply int2_format_b. lia.
Qed.

Lemma length_low_bits (b : nat) (v : Z) : length (low_bits b v) = b.
Proof. unfold low_bits. by rewrite length_fmap, length_reverse, length_seq. Qed.

Lemma low_bits_S (b : nat) (v : Z) :
  low_bits (S b) v = Z.testbit v (Z.of_nat b) :: low_bits b v.
Proof.
  unfold low_bits. rewrite seq_S, reverse_app. done.
Qed.

Lemma int2_low_bits (b : nat) (v : Z) : int2 (low_bits b v) = v `mod` 2 ^ Z.of_nat b.
Proof.
  induction b as [|b IH].
  - simpl. by rewrite Z.mod_1_r.
  - rewrite low_bits_S, int2_cons, IH, length_low_bits.
    rewrite Z.testbit_spec' by lia.
    rewrite Nat2Z.inj_succ, Z.pow_succ_r by lia.
    rewrite (Z.mul_comm 2), Z.rem_mul_r by lia. lia.
Qed.

Lemma land_ones_mod (v : Z) (b : nat) :
  Z.land v (Z.shiftl 1 (Z.of_nat b) - 1) = v `mod` 2 ^ Z.of_nat b.
Proof.
  change (Z.shiftl 1 (Z.of_nat b) - 1) with (Z.ones (Z.of_nat b)).
  apply Z.land_ones. lia.
Qed.

(** The extractor's formatting of a sample is its low bits, high bit first. *)
Lemma lsb_string_low_bits (b : nat) (v : Z) :
  (1 ≤ b)%nat → lsb_string b v = low_bits b v.
Proof.
  intros Hb. unfold lsb_string. rewrite land_ones_mod.
  assert (0 ≤ v `mod` 2 ^ Z.of_nat b < 2 ^ Z.of_nat b) by (apply Z.mod_pos_bound; lia).
  apply int2_inj.
  - rewrite length_low_bits. by apply length_format_b.
  - rewrite int2_low_bits. apply int2_format_b. lia.
Qed.

Lemma length_ljust (w : nat) (s : bitstring) :
  (length s ≤ w)%nat → length (ljust w s) = w.
Proof. intros. unfold ljust. rewrite length_app, length_replicate. lia. Qed.

(** Reading back what an embedding step wrote. *)
Lemma lsb_string_write_lsb (b : nat) (v : Z) (chunk : bitstring) :
  (1 ≤ b)%nat → (length chunk ≤ b)%nat →
  lsb_string b (write_lsb b v chunk) = ljust b chunk.
Proof.
  intros Hb Hc. unfold lsb_string, write_lsb.
  pose proof (length_ljust b chunk Hc) as Hl.
  pose proof (int2_bounds (ljust b chunk)) as Hi. rewrite Hl in Hi.
  rewrite land_ones_mod.
  rewrite <- Z.land_ones by lia.
  rewrite Z.land_lor_distr_l, <- Z.land_assoc.
  rewrite (Z.land_ones (Z.shiftl _ _)) by lia.
  rewrite Z.shiftl_mul_pow2 by lia.
  rewrite Z.mod_mul by lia.
  rewrite Z.land_0_r, Z.lor_0_l, Z.land_ones by lia.
  rewrite Z.mod_small by lia.
  rewrite <- Hl at 1. apply format_b_int2.
  intros Hnil. rewrite Hnil in Hl. simpl in Hl. lia.
Qed.

(** An embedding step leaves the bits above the low [b] ones as they were. *)
Lemma write_lsb_high (b : nat) (v : Z) (chunk : bitstring) :
  (length chunk ≤ b)%nat → 0 ≤ v < 256 →
  Z.shiftr (write_lsb b v chunk) (Z.of_nat b) = Z.shiftr v (Z.of_nat b).
Proof.
  intros Hc Hv. unfold write_lsb.
  pose proof (length_ljust b chunk Hc) as Hl.
  pose proof (int2_bounds (ljust b chunk)) as Hi. rewrite Hl in Hi.
  rewrite Z.shiftr_lor, Z.shiftr_land.
  rewrite Z.shiftr_shiftl_l, Z.sub_diag, Z.shiftl_0_r by lia.
  rewrite <- Z.shiftr_land.
  change 255 with (Z.ones 8). rewrite Z.land_ones by lia.
  rewrite (Z.mod_small v) by (simpl; lia).
  rewrite (Z.shiftr_div_pow2 (int2 _)) by lia.
  rewrite Z.div_small by lia. by rewrite Z.lor_0_r.
Qed.

Lemma write_lsb_range (b : nat) (v : Z) (chunk : bitstring) :
  (length chunk ≤ b)%nat → (b ≤ 8)%nat → 0 ≤ v < 256 →
  0 ≤ write_lsb b v chunk < 256.
Proof.
  intros Hc Hb Hv.
  pose proof (write_lsb_high b v chunk Hc Hv) as Hh.
  pose proof (length_ljust b chunk Hc) as Hl.
  pose proof (int2_bounds (ljust b chunk)) as Hi. rewrite Hl in Hi.
  assert (0 ≤ write_lsb b v chunk) as H0.
  { unfold write_lsb. apply Z.lor_nonneg. split; [|lia].
    apply Z.land_nonneg. left. lia. }
  split; [done|].
  rewrite !Z.shiftr_div_pow2 in Hh by lia.
  assert (0 < 2 ^ Z.of_nat b) by lia.
  assert (2 ^ Z.of_nat b * 2 ^ (8 - Z.of_nat b) = 256) as H256.
  { rewrite <- Z.pow_add_r by lia. by replace (Z.of_nat b + (8 - Z.of_nat b)) with 8 by lia. }
  assert (v `div` 2 ^ Z.of_nat b < 2 ^ (8 - Z.of_nat b)).
  { apply Z.div_lt_upper_bound; lia. }
  pose proof (Z.div_mod (write_lsb b v chunk) (2 ^ Z.of_nat b) ltac:(lia)).
  pose proof (Z.mod_pos_bound (write_lsb b v chunk) (2 ^ Z.of_nat b) ltac:(lia)).
  nia.
Qed.

(** * Searching the end marker *)

Lemma startswith_take (pat s : bitstring) :
  startswith pat s = true ↔ take (length pat) s = pat.
Proof.
  revert s. induction pat as [|p pat IH]; intros s; simpl.
  - by rewrite take_0.
  - destruct s as [|c s]; simpl; [done|].
    rewrite andb_true_iff, IH, Bool.eqb_true_iff. split.
    + by intros [-> ->].
    + intros [= -> Ht]. by rewrite Ht.
Qed.

Lemma startswith_occurs (pat s : bitstring) :
  startswith pat s = true ↔ occurs_at pat s 0.
Proof. unfold occurs_at. rewrite drop_0. apply startswith_take. Qed.

Lemma occurs_at_S (pat : bitstring) (c : bool) (s : bitstring) (i : nat) :
  occurs_at pat (c :: s) (S i) ↔ occurs_at pat s i.
Proof. done. Qed.

Lemma find_sub_Some (pat s : bitstring) (i : nat) :
  find_sub pat s = Some i →
  occurs_at pat s i ∧ ∀ j, (j < i)%nat → ¬ occurs_at pat s j.
Proof.
  revert i. induction s as [|c s IH]; intros i; simpl.
  - destruct (startswith pat []) eqn:Hs; [|done].
    intros [= <-]. split; [by apply startswith_occurs | lia].
  - destruct (startswith pat (c :: s)) eqn:Hs.
    + intros [= <-]. split; [by apply startswith_occurs | lia].
    + destruct (find_sub pat s) as [k|]; simpl; [|done].
      intros [= <-]. destruct (IH k eq_refl) as [Hk Hmin]. split; [done|].
      intros [|j] Hj.
      * rewrite <- startswith_occurs. by rewrite Hs.
      * rewrite occurs_at_S. apply Hmin. lia.
Qed.

Lemma find_sub_None (pat s : bitstring) :
  find_sub pat s = None → ∀ j, ¬ occurs_at pat s j.
Proof.
  induction s as [|c s IH]; simpl.
  - destruct (startswith pat []) eqn:Hs; [done|]. intros _ j.
    unfold occurs_at. rewrite drop_nil. intros Ho.
    rewrite <- (drop_0 []) in Ho. apply startswith_occurs in Ho. by rewrite Hs in Ho.
  - destruct (startswith pat (c :: s)) eqn:Hs; [done|].
    destruct (find_sub pat s) as [k|]; simpl; [done|]. intros _ [|j].
    + rewrite <- startswith_occurs. by rewrite Hs.
    + rewrite occurs_at_S. by apply IH.
Qed.

(** The first occurrence is found whenever there is one. *)
Lemma find_sub_first (pat s : bitstring) (i : nat) :
  occurs_at pat s i → (∀ j, (j < i)%nat → ¬ occurs_at pat s j) →
  find_sub pat s = Some i.
Proof.
  intros Ho Hmin. destruct (find_sub pat s) as [k|] eqn:Hf.
  - destruct (find_sub_Some _ _ _ Hf) as [Hk Hkmin].
    destruct (Nat.lt_trichotomy k i) as [?|[->|?]]; [|done|].
    + by destruct (Hmin k).
    + by destruct (Hkmin i).
  - by destruct (find_sub_None _ _ Hf i).
Qed.

Lemma cut_at_marker_spec (s : bitstring) :
  ∃ n, marker_cut s n ∧ cut_at_marker s = take n s.
Proof.
  unfold cut_at_marker, marker_cut.
  destruct (find_sub END_MARKER s) as [i|] eqn:Hf.
  - exists i. split; [|done]. left. by apply find_sub_Some.
  - exists (length s). split; [|by rewrite take_ge].
    right. split; [done|]. by apply find_sub_None.
Qed.

Lemma marker_cut_unique (s : bitstring) (n m : nat) :
  marker_cut s n → marker_cut s m → n = m.
Proof.
  intros [[Hn Hnmin]|[-> Hn]] [[Hm Hmmin]|[-> Hm]].
  - destruct (Nat.lt_trichotomy n m) as [?|[?|?]]; [|done|].
    + by destruct (Hmmin n).
    + by destruct (Hnmin m).
  - by destruct (Hm n).
  - by destruct (Hn m).
  - done.
Qed.

Lemma END_MARKER_lookup (j : nat) :
  (j < 15)%nat → END_MARKER !! j = Some true.
Proof. intros Hj. do 15 (destruct j as [|j]; [done|]). lia. Qed.

(** The marker ends in its only ['0']: an occurrence cannot start inside the
    payload bits and run into the marker that follows them. *)
Lemma occurs_before_marker (s t : bitstring) (i : nat) :
  (i < length s)%nat → occurs_at END_MARKER (s ++ END_MARKER ++ t) i →
  occurs_at END_MARKER s i.
Proof.
  unfold occurs_at. intros Hi Ho.
  destruct (decide (i + 16 ≤ length s)%nat) as [Hle|Hgt].
  - rewrite drop_app_le in Ho by lia.
    rewrite take_app_le in Ho by (rewrite length_drop; simpl; lia). done.
  - exfalso.
    assert (take (length END_MARKER) (drop i (s ++ END_MARKER ++ t)) !! 15%nat
            = Some true) as Hl.
    { rewrite lookup_take_lt by (simpl; lia). rewrite lookup_drop.
      rewrite lookup_app_r by lia. rewrite lookup_app_l by (simpl; lia).
      apply END_MARKER_lookup. lia. }
    rewrite Ho in Hl. done.
Qed.

Lemma find_sub_after_payload (s t : bitstring) :
  (∀ j, ¬ occurs_at END_MARKER s j) →
  find_sub END_MARKER (s ++ END_MARKER ++ t) = Some (length s).
Proof.
  intros Hfree. apply find_sub_first.
  - unfold occurs_at. rewrite drop_app_length. by rewrite take_app_length.
  - intros j Hj Ho. apply (Hfree j). by apply (occurs_before_marker s t).
Qed.

Lemma cut_at_marker_payload (s t : bitstring) :
  find_sub END_MARKER s = None →
  cut_at_marker (s ++ END_MARKER ++ t) = s.
Proof.
  intros Hfree. unfold cut_at_marker.
  rewrite find_sub_after_payload by by apply find_sub_None.
  by rewrite take_app_length.
Qed.

(** * Bits to bytes *)

Lemma of_bits_int2 (b7 b6 b5 b4 b3 b2 b1 b0 : bool) :
  byte_of_Z (int2 [b7; b6; b5; b4; b3; b2; b1; b0]) =
  Byte.of_bits (b0, (b1, (b2, (b3, (b4, (b5, (b6, b7))))))).
Proof. by destruct b7, b6, b5, b4, b3, b2, b1, b0. Qed.

Lemma spec_bytes_short (s : bitstring) : (length s < 8)%nat → spec_bytes s = [].
Proof. intros Hs. do 8 (destruct s as [|? s]; [done|]). simpl in Hs. lia. Qed.

Lemma spec_bytes_app8 (c s : bitstring) :
  length c = 8%nat → spec_bytes (c ++ s) = byte_of_Z (int2 c) :: spec_bytes s.
Proof.
  intros Hc. do 8 (destruct c as [|? c]; [done|]). destruct c; [|done].
  simpl. by rewrite of_bits_int2.
Qed.

Lemma ceil8_zero (n : nat) : ((n + 7) / 8)%nat = 0%nat → n = 0%nat.
Proof. intros Hn. apply Nat.div_small_iff in Hn; lia. Qed.

Lemma ceil8_step (n m : nat) :
  (8 ≤ n)%nat → ((n + 7) / 8)%nat = S m → ((n - 8 + 7) / 8)%nat = m.
Proof.
  intros Hn Hm.
  replace (n + 7)%nat with ((n - 8 + 7) + 1 * 8)%nat in Hm by lia.
  rewrite Nat.div_add in Hm by lia.
  generalize dependent ((n - 8 + 7) / 8)%nat. intros; lia.
Qed.

Lemma ceil8_last (n m : nat) :
  (n < 8)%nat → ((n + 7) / 8)%nat = S m → m = 0%nat.
Proof.
  intros Hn Hm. assert (n + 7 < 8 * 2)%nat as H2 by lia.
  apply Nat.Div0.div_lt_upper_bound in H2.
  generalize dependent ((n + 7) / 8)%nat. intros; lia.
Qed.

Lemma slice_after {A} (pre s : list A) (i n : nat) :
  length pre = i → slice i (i + n) (pre ++ s) = take n s.
Proof.
  intros <-. unfold slice. rewrite drop_app_length. f_equal. lia.
Qed.

Lemma to_bytes_loop (n k : nat) (pre s : bitstring) (acc : bytes) :
  length pre = (8 * k)%nat → ((length s + 7) / 8)%nat = n →
  fold_left
    (λ bytes_data i,
       let byte_str := slice i (i + 8) (pre ++ s) in
       if bool_decide (length byte_str = 8%nat)
       then bytes_data ++ [byte_of_Z (int2 byte_str)]
       else bytes_data)
    ((λ k, 8 * k)%nat <$> seq k n) acc = acc ++ spec_bytes s.
Proof.
  revert k pre s acc. induction n as [|n IH]; intros k pre s acc Hpre Hn.
  - apply ceil8_zero, nil_length_inv in Hn as ->. simpl. by rewrite app_nil_r.
  - rewrite <- cons_seq, fmap_cons. cbn [fold_left]. cbv beta zeta.
    rewrite (slice_after pre s) by done.
    destruct (decide (8 ≤ length s)%nat) as [Hlen|Hlen].
    + assert (length (take 8 s) = 8%nat) as Ht by (rewrite length_take; lia).
      assert (((length (drop 8 s) + 7) / 8)%nat = n) as Hd
        by (rewrite length_drop; by apply ceil8_step).
      pose proof (take_drop 8 s) as Hsplit.
      set (c := take 8 s) in *. set (s' := drop 8 s) in *.
      clearbody c s'. subst s.
      rewrite bool_decide_eq_true_2 by done.
      rewrite spec_bytes_app8 by done.
      rewrite (app_assoc pre).
      rewrite (IH (S k) (pre ++ c) s'); [|rewrite length_app; lia|done].
      by rewrite <- app_assoc.
    + rewrite take_ge by lia.
      rewrite bool_decide_eq_false_2 by lia.
      rewrite spec_bytes_short by lia.
      assert (n = 0%nat) as -> by (apply (ceil8_last (length s)); [lia | done]).
      simpl. by rewrite app_nil_r.
Qed.

(** The conversion loop is the eight-bits-at-a-time reading. *)
Lemma to_bytes_spec (s : bitstring) : to_bytes s = spec_bytes s.
Proof.
  unfold to_bytes, range8.
  by rewrite (to_bytes_loop _ 0 [] s []).
Qed.

Lemma spec_bytes_format (x : byte) (t : bitstring) :
  spec_bytes (format_b 8 (Z_of_byte x) ++ t) = x :: spec_bytes t.
Proof. by destruct x. Qed.

Lemma spec_bytes_bits_of_bytes (d : bytes) (t : bitstring) :
  spec_bytes (bits_of_bytes d ++ t) = d ++ spec_bytes t.
Proof.
  unfold bits_of_bytes. induction d as [|x d IH]; [done|].
  rewrite fmap_cons. simpl mjoin. rewrite <- app_assoc, spec_bytes_format.
  by rewrite IH.
Qed.

Lemma to_bytes_bits_of_bytes (d : bytes) : to_bytes (bits_of_bytes d) = d.
Proof.
  rewrite to_bytes_spec. rewrite <- (app_nil_r (bits_of_bytes d)).
  rewrite spec_bytes_bits_of_bytes. simpl. by rewrite app_nil_r.
Qed.

Lemma length_bits_of_bytes (d : bytes) : length (bits_of_bytes d) = (8 * length d)%nat.
Proof.
  unfold bits_of_bytes. induction d as [|x d IH]; [done|].
  rewrite fmap_cons. simpl mjoin. rewrite length_app, IH.
  assert (length (format_b 8 (Z_of_byte x)) = 8%nat) as -> by by destruct x.
  simpl. lia.
Qed.

(** * The embedding loop *)

Lemma slice_take_drop {A} (i n : nat) (l : list A) :
  slice i (i + n) l = take n (drop i l).
Proof. unfold slice. f_equal. lia. Qed.

(** Over [range(len(flat_img))] the loop is [embed_stream] on the part of the
    buffer not yet visited. *)
Lemma embed_loop_seq (bits : nat) (binary_data : bitstring)
    (suf pre : list Z) (data_index : nat) :
  (1 ≤ bits)%nat →
  embed_loop bits binary_data (seq (length pre) (length suf)) (pre ++ suf) data_index
  = Ok (pre ++ embed_stream bits (drop data_index binary_data) suf).
Proof.
  intros Hb. revert pre data_index.
  induction suf as [|v suf IH]; intros pre data_index; [done|].
  cbn [length seq embed_loop embed_stream].
  case_bool_decide as Hend.
  - by rewrite drop_ge.
  - rewrite list_lookup_middle by done.
    rewrite slice_take_drop.
    assert (length (drop data_index binary_data) ≠ 0%nat) as Hne
      by (rewrite length_drop; lia).
    destruct (drop data_index binary_data) as [|c rest] eqn:Hd; [done|].
    destruct (take bits (c :: rest)) as [|c' chunk] eqn:Ht.
    { destruct bits; [lia | done]. }
    rewrite <- Ht.
    replace (<[length pre:=_]> (pre ++ v :: suf))
      with ((pre ++ [write_lsb bits v (take bits (c :: rest))]) ++ suf).
    2:{ rewrite insert_app_r_alt, Nat.sub_diag by lia.
        by rewrite <- app_assoc. }
    replace (S (length pre)) with (length (pre ++ [write_lsb bits v (take bits (c :: rest))]))
      by (rewrite length_app; simpl; lia).
    rewrite IH. rewrite <- app_assoc. simpl.
    by rewrite <- drop_drop, Hd.
Qed.

Lemma _lsb_embed_secure_stream (img_array : ndarray) (data : bytes) (bits : nat) :
  (1 ≤ bits)%nat →
  (8 * length data + 16 ≤ length (flat img_array) * bits)%nat →
  _lsb_embed_secure img_array data bits =
  Ok (reshape (embed_stream bits (bits_of_bytes data ++ END_MARKER) (flat img_array))
              img_array).
Proof.
  intros Hb Hcap. unfold _lsb_embed_secure.
  rewrite bool_decide_eq_false_2
    by (rewrite length_app, length_bits_of_bytes; simpl; lia).
  by rewrite (embed_loop_seq bits _ (flat img_array) [] 0 Hb).
Qed.

Lemma _lsb_embed_secure_capacity (img_array : ndarray) (data : bytes) (bits : nat) :
  (length (flat img_array) * bits < 8 * length data + 16)%nat →
  _lsb_embed_secure img_array data bits = Raise (ValueError "Insufficient capacity").
Proof.
  intros Hcap. unfold _lsb_embed_secure.
  by rewrite bool_decide_eq_true_2
    by (rewrite length_app, length_bits_of_bytes; simpl; lia).
Qed.

Lemma length_embed_stream (bits : nat) (s : bitstring) (buf : list Z) :
  length (embed_stream bits s buf) = length buf.
Proof.
  revert s. induction buf as [|v buf IH]; intros s; [done|].
  destruct s; simpl; [done|]. by rewrite IH.
Qed.

(** Samples past the end of the stream keep their value. *)
Lemma embed_stream_untouched (bits : nat) (s : bitstring) (buf : list Z) (i : nat) :
  (length s ≤ i * bits)%nat → embed_stream bits s buf !! i = buf !! i.
Proof.
  revert s i. induction buf as [|v buf IH]; intros s i Hi; [done|].
  destruct s as [|c s]; [done|]. destruct i as [|i]; [simpl in Hi; lia|].
  cbn [embed_stream]. rewrite !lookup_cons. apply IH.
  rewrite length_drop. simpl in *. lia.
Qed.

(** Every sample keeps the bits above its low [bits] ones. *)
Lemma embed_stream_high (bits : nat) (s : bitstring) (buf : list Z) (i : nat) (v v' : Z) :
  buf !! i = Some v → embed_stream bits s buf !! i = Some v' → 0 ≤ v < 256 →
  Z.shiftr v' (Z.of_nat bits) = Z.shiftr v (Z.of_nat bits).
Proof.
  revert s i. induction buf as [|u buf IH]; intros s i Hv Hv' Hr; [done|].
  destruct s as [|c s]; [simpl in Hv'; congruence|].
  cbn [embed_stream] in Hv'. destruct i as [|i].
  - simpl in Hv, Hv'. injection Hv as ->. injection Hv' as <-.
    apply write_lsb_high; [|done]. rewrite length_take. lia.
  - rewrite lookup_cons in Hv, Hv'. by eapply IH.
Qed.

Lemma embed_stream_range (bits : nat) (s : bitstring) (buf : list Z) :
  (bits ≤ 8)%nat → Forall (λ v, 0 ≤ v < 256) buf →
  Forall (λ v, 0 ≤ v < 256) (embed_stream bits s buf).
Proof.
  intros Hb. revert s. induction buf as [|u buf IH]; intros s Hbuf; [done|].
  apply Forall_cons in Hbuf as [Hu Hbuf].
  destruct s as [|c s]; [by constructor|].
  cbn [embed_stream]. constructor; [|by apply IH].
  apply write_lsb_range; [|done..]. rewrite length_take. lia.
Qed.

Lemma fold_left_append {A B} (f : A → list B) (l : list A) (acc : list B) :
  fold_left (λ acc x, acc ++ f x) l acc = acc ++ (l ≫= f).
Proof.
  revert acc. induction l as [|x l IH]; intros acc; simpl.
  - by rewrite app_nil_r.
  - by rewrite IH, <- app_assoc.
Qed.

(** The low bits of the embedded buffer, read in index order, start with the
    embedded stream. *)
Lemma embed_stream_read (bits : nat) (s : bitstring) (buf : list Z) :
  (1 ≤ bits)%nat → (length s ≤ length buf * bits)%nat →
  ∃ t, embed_stream bits s buf ≫= lsb_string bits = s ++ t.
Proof.
  intros Hb. revert s. induction buf as [|v buf IH]; intros s Hlen.
  - simpl in Hlen. assert (length s = 0%nat) as Hs by lia.
    apply nil_length_inv in Hs as ->. by exists [].
  - destruct s as [|c s]; [by eexists|].
    cbn [embed_stream]. rewrite bind_cons.
    rewrite lsb_string_write_lsb by (rewrite ?length_take; lia).
    destruct (IH (drop bits (c :: s))) as [t Ht].
    { rewrite length_drop. simpl in *. lia. }
    rewrite Ht. unfold ljust.
    exists (replicate (bits - length (take bits (c :: s))) false ++ t).
    destruct (decide (bits ≤ length (c :: s))%nat) as [Hle|Hgt].
    + rewrite length_take, Nat.min_l, Nat.sub_diag by done. simpl replicate.
      rewrite app_nil_r, app_assoc, take_drop. done.
    + rewrite drop_ge, take_ge by lia. by rewrite <- !app_assoc.
Qed.

Lemma _lsb_extract_secure_bind (img_array : ndarray) (bits : nat) :
  _lsb_extract_secure img_array bits =
  to_bytes (cut_at_marker (flat img_array ≫= lsb_string bits)).
Proof. unfold _lsb_extract_secure. by rewrite fold_left_append. Qed.

(** Sequential embedding followed by sequential extraction, at the level of
    the framed bytes. *)
Lemma lsb_roundtrip (img_array stego : ndarray) (data : bytes) (bits : nat) :
  (1 ≤ bits)%nat →
  (8 * length data + 16 ≤ length (flat img_array) * bits)%nat →
  find_sub END_MARKER (bits_of_bytes data) = None →
  _lsb_embed_secure img_array data bits = Ok stego →
  _lsb_extract_secure stego bits = data.
Proof.
  intros Hb Hcap Hfree. rewrite _lsb_embed_secure_stream by done.
  intros [= <-]. rewrite _lsb_extract_secure_bind. simpl flat.
  destruct (embed_stream_read bits (bits_of_bytes data ++ END_MARKER)
              (flat img_array) Hb) as [t Ht].
  { rewrite length_app, length_bits_of_bytes. simpl. lia. }
  rewrite Ht, <- app_assoc, cut_at_marker_payload by done.
  apply to_bytes_bits_of_bytes.
Qed.

Lemma ceil_div_le (L b i : nat) :
  (1 ≤ b)%nat → ((L + b - 1) / b ≤ i)%nat → (L ≤ i * b)%nat.
Proof.
  intros Hb Hi.
  pose proof (Nat.mul_succ_div_gt (L + b - 1) b ltac:(lia)) as Hd.
  generalize dependent ((L + b - 1) / b)%nat. intros q Hi Hd. nia.
Qed.

(** * The permuted extraction loop *)

Lemma random_extract_loop_spec (bits : nat) (flat_img : list Z) (indices : list nat)
    (binary_data : list bitstring) :
  length binary_data = length flat_img →
  Forall (λ idx, idx < length flat_img)%nat indices →
  ∃ out, random_extract_loop bits flat_img indices binary_data = Ok out ∧
         length out = length flat_img ∧
         ∀ i, out !! i = if decide (i ∈ indices)
                         then lsb_string bits <$> flat_img !! i
                         else binary_data !! i.
Proof.
  revert binary_data. induction indices as [|idx indices IH]; intros bd Hlen Hin.
  - exists bd. split; [done|]. split; [done|]. intros i.
    destruct (decide (i ∈ [])) as [Hi|]; [|done]. by apply elem_of_nil in Hi.
  - apply Forall_cons in Hin as [Hidx Hin]. cbn [random_extract_loop].
    destruct (lookup_lt_is_Some_2 flat_img idx Hidx) as [pixel Hpixel].
    rewrite Hpixel. rewrite bool_decide_eq_true_2 by lia.
    destruct (IH (<[idx := lsb_string bits pixel]> bd)) as (out & Hout & Hlo & Hl);
      [by rewrite length_insert|done|].
    exists out. split; [done|]. split; [done|]. intros i. rewrite Hl.
    destruct (decide (i ∈ indices)) as [Hi|Hi].
    + rewrite decide_True by (by right). done.
    + destruct (decide (i = idx)) as [->|Hne].
      * rewrite decide_True by left.
        rewrite list_lookup_insert_eq by lia. by rewrite Hpixel.
      * rewrite decide_False by (by intros [?|?]%elem_of_cons).
        by rewrite list_lookup_insert_ne.
Qed.

Lemma mjoin_fmap_bind {A B} (f : A → list B) (l : list A) :
  mjoin (f <$> l) = l ≫= f.
Proof. induction l as [|x l IH]; [done|]. by rewrite fmap_cons, bind_cons, <- IH. Qed.

(** * The envelope header *)

Lemma Z_of_byte_of_Z (z : Z) : Z_of_byte (byte_of_Z z) = z `mod` 256.
Proof.
  unfold Z_of_byte, byte_of_Z.
  pose proof (Z.mod_pos_bound z 256 ltac:(lia)) as Hz.
  destruct (Byte.of_N (Z.to_N (z `mod` 256))) as [b|] eqn:Hb.
  - apply Byte.to_of_N in Hb. simpl. rewrite Hb. lia.
  - apply Byte.of_N_None_iff in Hb. lia.
Qed.

Lemma int_from_bytes_big_snoc (l : bytes) (x : byte) :
  int_from_bytes_big (l ++ [x]) = 256 * int_from_bytes_big l + Z_of_byte x.
Proof. unfold int_from_bytes_big. by rewrite fold_left_app. Qed.

Lemma length_int_to_bytes_big (n : nat) (v : Z) : length (int_to_bytes_big n v) = n.
Proof.
  revert v. induction n as [|n IH]; intros v; [done|].
  simpl. rewrite length_app, IH. simpl. lia.
Qed.

Lemma int_from_to_bytes_big (n : nat) (v : Z) :
  0 ≤ v < 256 ^ Z.of_nat n → int_from_bytes_big (int_to_bytes_big n v) = v.
Proof.
  revert v. induction n as [|n IH]; intros v Hv.
  - simpl in *. unfold int_from_bytes_big. simpl. lia.
  - simpl int_to_bytes_big. rewrite int_from_bytes_big_snoc, Z_of_byte_of_Z.
    rewrite Nat2Z.inj_succ, Z.pow_succ_r in Hv by lia.
    rewrite IH.
    + pose proof (Z.div_mod v 256 ltac:(lia)). lia.
    + split; [apply Z.div_pos; lia|]. apply Z.div_lt_upper_bound; lia.
Qed.

Lemma struct_pack_Ok (n : nat) (v : Z) (b : bytes) :
  struct_pack n v = Ok b ↔ 0 ≤ v < 256 ^ Z.of_nat n ∧ b = int_to_bytes_big n v.
Proof.
  unfold struct_pack. case_bool_decide.
  - split; [by intros [= <-] | by intros [_ ->]].
  - split; [done | by intros [? _]].
Qed.

Lemma struct_unpack_pack (n : nat) (v : Z) (b : bytes) :
  struct_pack n v = Ok b → length b = n ∧ struct_unpack n b = Ok v.
Proof.
  intros [Hv ->]%struct_pack_Ok. unfold struct_unpack.
  rewrite length_int_to_bytes_big, bool_decide_eq_true_2 by done.
  by rewrite int_from_to_bytes_big.
Qed.

Lemma slice_mid {A} (a b c : list A) (i j : nat) :
  length a = i → (i + length b)%nat = j → slice i j (a ++ b ++ c) = b.
Proof.
  intros <- <-. unfold slice. rewrite drop_app_length.
  replace (length a + length b - length a)%nat with (length b) by lia.
  by rewrite take_app_length.
Qed.

Lemma slice_front {A} (b c : list A) (j : nat) :
  length b = j → slice 0 j (b ++ c) = b.
Proof. intros <-. apply (slice_mid [] b c); done. Qed.

Lemma pack_header_Ok (h : header_data) :
  header_ok h → ∃ header, pack_header h = Ok header.
Proof.
  intros (Hm & Hts & Hos & Hps & Hen & Hco & Hck). unfold pack_header, struct_pack.
  rewrite !bool_decide_eq_true_2 by (simpl; lia). simpl. by eexists.
Qed.

Lemma pack_header_inv (h : header_data) (header : bytes) :
  pack_header h = Ok header →
  ∃ ts os ps en co,
    struct_pack 8 (hd_timestamp h) = Ok ts ∧
    struct_pack 4 (hd_original_size h) = Ok os ∧
    struct_pack 4 (hd_processed_size h) = Ok ps ∧
    struct_pack 1 (hd_encrypted h) = Ok en ∧
    struct_pack 1 (hd_compressed h) = Ok co ∧
    header = hd_magic h ++ ts ++ os ++ ps ++ en ++ co ++ hd_checksum h.
Proof.
  unfold pack_header.
  destruct (struct_pack 8 _) as [ts|]; [|done].
  destruct (struct_pack 4 (hd_original_size h)) as [os|]; [|done].
  destruct (struct_pack 4 (hd_processed_size h)) as [ps|]; [|done].
  destruct (struct_pack 1 (hd_encrypted h)) as [en|]; [|done].
  destruct (struct_pack 1 (hd_compressed h)) as [co|]; [|done].
  simpl. intros [= <-]. exists ts, os, ps, en, co.
  by rewrite <- !app_assoc.
Qed.

(** Parsing at the fixed offsets what [pack_header] built, with or without
    payload bytes after it. *)
Lemma unpack_pack_header (h : header_data) (header rest : bytes) :
  length (hd_magic h) = 9%nat → length (hd_checksum h) = 16%nat →
  pack_header h = Ok header →
  length header = 43%nat ∧ unpack_header (header ++ rest) = Ok h.
Proof.
  intros Hm Hck (ts & os & ps & en & co & Hts & Hos & Hps & Hen & Hco & ->)%pack_header_inv.
  apply struct_unpack_pack in Hts as [Lts Uts], Hos as [Los Uos], Hps as [Lps Ups],
    Hen as [Len Uen], Hco as [Lco Uco].
  split; [rewrite !length_app; lia|].
  unfold unpack_header. rewrite <- !app_assoc.
  rewrite (slice_front (hd_magic h) _ 9) by done.
  rewrite (slice_mid (hd_magic h) ts _ 9 17) by lia.
  rewrite Uts. simpl.
  rewrite (app_assoc (hd_magic h) ts), (slice_mid _ os _ 17 21)
    by (rewrite ?length_app; lia).
  rewrite Uos. simpl.
  rewrite (app_assoc _ os), (slice_mid _ ps _ 21 25) by (rewrite ?length_app; lia).
  rewrite Ups. simpl.
  rewrite (app_assoc _ ps), (slice_mid _ en _ 25 26) by (rewrite ?length_app; lia).
  rewrite Uen. simpl.
  rewrite (app_assoc _ en), (slice_mid _ co _ 26 27) by (rewrite ?length_app; lia).
  rewrite Uco. simpl.
  rewrite (app_assoc _ co), (slice_mid _ (hd_checksum h) _ 27 43)
    by (rewrite ?length_app; lia).
  by destruct h.
Qed.

(** * Packing and unpacking the payload *)
Section codec.
Context `{Externals}.

Lemma decrypt_encrypt (w : world) (d : bytes) (password : string) :
  pbkdf2_length → gcm_inverse → random_length w →
  decrypt (encrypt w d password) password = Ok d.
Proof.
  intros Hkey Hgcm Hrand. unfold decrypt, encrypt, _encrypt_aes_gcm, _decrypt_aes_gcm.
  destruct (Hgcm (_derive_key password 32) (get_random_bytes w 12) d) as [Htag Hdec];
    [by unfold _derive_key; rewrite Hkey | apply Hrand |].
  destruct (gcm_encrypt_and_digest _ _ d) as [ciphertext tag]. simpl in Htag, Hdec.
  rewrite (slice_front (get_random_bytes w 12)) by apply Hrand.
  rewrite (slice_mid (get_random_bytes w 12) tag) by (rewrite ?Hrand; lia).
  rewrite app_assoc, drop_app_length' by (rewrite length_app, Hrand; lia).
  by rewrite Hdec.
Qed.

Lemma length_MAGIC : length MAGIC = 9%nat.
Proof. done. Qed.

(** What [_prepare_data_with_security] returns when it returns. *)
Lemma prepare_data_inv (w : world) (data : bytes) (password : string)
    (framed : bytes) :
  _prepare_data_with_security w data password = Ok framed →
  ∃ header payload,
    framed = header ++ payload ∧
    _create_secure_header w data payload (nonempty password) = Ok header ∧
    (if nonempty password
     then CryptoManager = Ok () ∧ payload = encrypt w (zlib_compress data) password
     else payload = zlib_compress data).
Proof.
  unfold _prepare_data_with_security. destruct (nonempty password).
  - destruct CryptoManager as [[]|] eqn:Hc; [|done]. simpl.
    destruct (_create_secure_header _ _ _ _) as [header|] eqn:Hh; [|done].
    simpl. intros [= <-]. by exists header, (encrypt w (zlib_compress data) password).
  - simpl. destruct (_create_secure_header _ _ _ _) as [header|] eqn:Hh; [|done].
    simpl. intros [= <-]. by exists header, (zlib_compress data).
Qed.

Lemma create_secure_header_fields (w : world) (data payload : bytes) (encrypted : bool)
    (header : bytes) :
  _create_secure_header w data payload encrypted = Ok header →
  0 ≤ time_time w < 2 ^ 64 ∧ Z.of_nat (length data) < 2 ^ 32 ∧
  Z.of_nat (length payload) < 2 ^ 32.
Proof.
  unfold _create_secure_header.
  intros (ts & os & ps & en & co & Hts & Hos & Hps & _)%pack_header_inv.
  apply struct_pack_Ok in Hts as [Hts _], Hos as [Hos _], Hps as [Hps _].
  simpl in *. lia.
Qed.

(** Unpacking what was packed, with the same password. *)
Lemma process_prepared (w : world) (data : bytes) (password : string) (framed : bytes) :
  zlib_inverse → pbkdf2_length → gcm_inverse → sha256_length → random_length w →
  _prepare_data_with_security w data password = Ok framed →
  _process_extracted_data framed password =
  (data, info_secure (time_time w) (Z.of_nat (length data)) (nonempty password) true true).
Proof.
  intros Hzlib Hkey Hgcm Hsha Hrand
    (header & payload & -> & Hheader & Hpayload)%prepare_data_inv.
  unfold _create_secure_header in Hheader.
  apply (unpack_pack_header _ _ payload) in Hheader as [Hlen Hunpack];
    [|done|by cbn [hd_checksum]; rewrite length_take, Hsha].
  unfold _process_extracted_data, process_try.
  rewrite bool_decide_eq_false_2 by (rewrite length_app; lia).
  assert (slice 0 9 (header ++ payload) = MAGIC) as Hmagic.
  { unfold unpack_header in Hunpack.
    repeat match type of Hunpack with
    | context [struct_unpack ?n ?b] => destruct (struct_unpack n b); [simpl in Hunpack|done]
    end.
    injection Hunpack; intros; assumption. }
  rewrite bool_decide_eq_false_2 by (intros Hne; apply Hne, Hmagic).
  rewrite Hunpack.
  cbn [mbind result_bind hd_processed_size hd_encrypted hd_compressed hd_checksum
       hd_timestamp hd_original_size].
  rewrite Nat2Z.id.
  rewrite (slice_after header payload 43) by done.
  rewrite firstn_all.
  assert (∀ e : bool,
            zlib_decompress (zlib_compress data) ≫= (λ data_part : bytes,
              Ok (data_part,
                  info_secure (time_time w) (Z.of_nat (length data)) e
                    (bool_decide (1 ≠ 0))
                    (bool_decide (take 16 (sha256_digest data)
                                       = take 16 (sha256_digest data_part)))))
            = Ok (data, info_secure (time_time w) (Z.of_nat (length data)) e true true))
    as Hfinal.
  { intros e. rewrite Hzlib. cbn [mbind result_bind].
    by rewrite !bool_decide_eq_true_2. }
  rewrite (bool_decide_eq_true_2 (1 ≠ 0)) by done.
  rewrite (bool_decide_eq_true_2 (1 ≠ 0)) in Hfinal by done.
  unfold mbind in *.
  destruct (nonempty password) eqn:Hpw.
  - destruct Hpayload as [Hcm ->].
    rewrite (bool_decide_eq_true_2 (1 ≠ 0)) by done.
    cbn [andb]. rewrite Hcm. cbn [result_bind].
    rewrite decrypt_encrypt by done. cbn [result_bind].
    cbn [result_bind] in Hfinal. by rewrite Hfinal.
  - subst payload. rewrite (bool_decide_eq_false_2 (0 ≠ 0)) by (intros Hne; by apply Hne).
    cbn [andb result_bind]. cbn [result_bind] in Hfinal. by rewrite Hfinal.
Qed.
End codec.

(** * The stand-in libraries satisfy the guarantees *)

Lemma toy_zlib_inverse : @zlib_inverse toy.
Proof. by intros d. Qed.

Lemma toy_sha256_length : @sha256_length toy.
Proof.
  intros d. change (length (take 32 (d ++ replicate 32 x00)) = 32%nat).
  rewrite length_take, length_app, length_replicate. lia.
Qed.

Lemma toy_pbkdf2_length : @pbkdf2_length toy.
Proof.
  intros password salt iterations n Hn.
  change (length (take (Z.to_nat n) (password ++ replicate (Z.to_nat n) x00))
          = Z.to_nat n).
  rewrite length_take, length_app, length_replicate. lia.
Qed.

Lemma toy_gcm_inverse : @gcm_inverse toy.
Proof.
  intros key iv d _ _. cbn [gcm_encrypt_and_digest gcm_decrypt_and_verify toy fst snd]. split.
  - unfold toy_tag. rewrite length_take, length_app, length_replicate. lia.
  - unfold toy_gcm_decrypt. rewrite bool_decide_eq_true_2 by done.
    by rewrite reverse_involutive.
Qed.

Lemma toy_permutation_ok : @permutation_ok toy.
Proof. intros seed n. simpl. apply reverse_Permutation. Qed.

Lemma toy_random_length (t : Z) : random_length (toy_world t).
Proof. intros n. simpl. apply length_replicate. Qed.

(** * The loops on arbitrary index lists *)

Lemma embed_loop_raises (bits : nat) (binary_data : bitstring) (indices : list nat)
    (flat_img : list Z) (data_index : nat) (e : exn) :
  embed_loop bits binary_data indices flat_img data_index = Raise e → e = IndexError.
Proof.
  revert flat_img data_index.
  induction indices as [|idx indices IH]; intros flat_img data_index; [done|].
  cbn [embed_loop]. case_bool_decide; [done|].
  destruct (flat_img !! idx); [|by intros [= <-]]. apply IH.
Qed.

Lemma embed_loop_in_range (bits : nat) (binary_data : bitstring) (indices : list nat)
    (flat_img : list Z) (data_index : nat) :
  Forall (λ idx, idx < length flat_img)%nat indices →
  ∃ out, embed_loop bits binary_data indices flat_img data_index = Ok out ∧
         length out = length flat_img.
Proof.
  revert flat_img data_index.
  induction indices as [|idx indices IH]; intros flat_img data_index Hin.
  - by exists flat_img.
  - apply Forall_cons in Hin as [Hidx Hin]. cbn [embed_loop].
    case_bool_decide; [by exists flat_img|].
    destruct (lookup_lt_is_Some_2 flat_img idx Hidx) as [v ->].
    destruct (slice _ _ _).
    + by apply IH.
    + edestruct IH as (out & Hout & Hlen); [|exists out; split; [exact Hout|]].
      * by rewrite length_insert.
      * by rewrite Hlen, length_insert.
Qed.

Lemma permutation_in_range `{Externals} (seed : Z) (n : nat) :
  permutation_ok → Forall (λ idx, idx < n)%nat (rng_permutation seed n).
Proof.
  intros Hperm. apply Forall_forall. intros idx Hidx.
  rewrite (Hperm seed n) in Hidx. apply elem_of_seq in Hidx. lia.
Qed.

Lemma random_extract_loop_all `{Externals} (bits : nat) (flat_img : list Z) (seed : Z) :
  permutation_ok →
  random_extract_loop bits flat_img (rng_permutation seed (length flat_img))
    (replicate (length flat_img) []) = Ok (lsb_string bits <$> flat_img).
Proof.
  intros Hperm.
  destruct (random_extract_loop_spec bits flat_img
              (rng_permutation seed (length flat_img))
              (replicate (length flat_img) [])) as (out & -> & Hlen & Hout).
  { apply length_replicate. }
  { by apply permutation_in_range. }
  f_equal. apply list_eq. intros i. rewrite Hout, list_lookup_fmap.
  destruct (decide _) as [|Hi]; [done|].
  rewrite (Hperm seed) in Hi. rewrite elem_of_seq in Hi.
  rewrite (proj1 (lookup_replicate_None _ _ _)) by lia.
  rewrite (proj2 (lookup_ge_None flat_img i)) by lia. done.
Qed.

Lemma bits_of_bytes_app (a b : bytes) :
  bits_of_bytes (a ++ b) = bits_of_bytes a ++ bits_of_bytes b.
Proof. unfold bits_of_bytes. by rewrite fmap_app, join_app. Qed.

(** * The entry points *)

Lemma valid_bits_range (bits : nat) :
  bits ∈ [1; 2; 3; 4]%nat ↔ (1 ≤ bits ≤ 4)%nat.
Proof.
  rewrite !elem_of_cons, elem_of_nil. lia.
Qed.

Lemma validate_inputs_Ok (image : image) (data : bytes) (bits : nat) :
  _validate_inputs (Some image) data bits = Ok () ↔ (1 ≤ bits ≤ 4)%nat ∧ data ≠ [].
Proof.
  unfold _validate_inputs. rewrite <- valid_bits_range.
  destruct (decide (bits ∈ [1; 2; 3; 4]%nat)) as [Hbits|Hbits].
  - rewrite bool_decide_eq_false_2 by (intros Hn; by apply Hn).
    destruct data as [|x data].
    + rewrite bool_decide_eq_true_2 by done. split; [done | by intros [_ ?]].
    + by rewrite bool_decide_eq_false_2 by done.
  - rewrite bool_decide_eq_true_2 by done. split; [done | by intros [? _]].
Qed.

Section entry_points.
Context `{Externals}.

(** What a successful [embed_data_secure] went through. *)
Lemma embed_data_secure_inv (w : world) (image : image) (data : bytes)
    (password : string) (bits : nat) (technique : string) (stego : ndarray) :
  embed_data_secure w (Some image) data password bits technique = Ok stego →
  (1 ≤ bits ≤ 4)%nat ∧ data ≠ [] ∧
  ∃ framed,
    _prepare_data_with_security w data password = Ok framed ∧
    (if bool_decide (technique = "LSB_RANDOM")
     then _lsb_random_embed (load_image image) framed bits password
     else _lsb_embed_secure (load_image image) framed bits) = Ok stego.
Proof.
  unfold embed_data_secure.
  destruct (_validate_inputs (Some image) data bits) as [[]|] eqn:Hvalid; [|done].
  apply validate_inputs_Ok in Hvalid as [Hbits Hdata]. cbn [mbind result_bind].
  destruct (_prepare_data_with_security w data password) as [framed|]; [|done].
  cbn [result_bind]. intros Hembed. split; [done|]. split; [done|].
  exists framed. split; [done|].
  destruct (decide (technique = "LSB")) as [->|Hlsb].
  - by rewrite (bool_decide_eq_false_2 ("LSB" = "LSB_RANDOM")).
  - by rewrite (bool_decide_eq_false_2 (technique = "LSB")) in Hembed by done.
Qed.

Lemma embed_data_secure_sequential (w : world) (image : image) (data : bytes)
    (password : string) (bits : nat) (technique : string) (framed : bytes) :
  (1 ≤ bits ≤ 4)%nat → data ≠ [] → technique ≠ "LSB_RANDOM" →
  _prepare_data_with_security w data password = Ok framed →
  embed_data_secure w (Some image) data password bits technique
  = _lsb_embed_secure (load_image image) framed bits.
Proof.
  intros Hbits Hdata Htech Hprep. unfold embed_data_secure.
  rewrite (proj2 (validate_inputs_Ok image data bits)) by done.
  cbn [mbind result_bind]. rewrite Hprep. cbn [result_bind].
  rewrite (bool_decide_eq_false_2 (technique = "LSB_RANDOM")) by done.
  by destruct (bool_decide (technique = "LSB")).
Qed.

(** Whatever the libraries return, a header stamped at 1711275520
    (0x65FFFE00) carries the end marker in its timestamp: every sequential
    embed made in that second is read back as the first 14 header bytes. *)
Lemma marker_in_timestamp (w : world) (image : image) (data : bytes)
    (password : string) (bits : nat) (technique stego_mode : string) (stego : ndarray) :
  time_time w = 1711275520 → technique ≠ "LSB_RANDOM" →
  embed_data_secure w (Some image) data password bits technique = Ok stego →
  extract_data_secure (Some {| mode := stego_mode; array := stego |})
                      password bits technique
  = Ok (MAGIC ++ [x00; x00; x00; x00; x65], info_legacy).
Proof.
  intros Htime Htech ([Hb _] & _ & framed & Hprep & Hembed)%embed_data_secure_inv.
  rewrite bool_decide_eq_false_2 in Hembed by done.
  apply prepare_data_inv in Hprep as (header & payload & -> & Hheader & _).
  unfold _create_secure_header in Hheader.
  apply pack_header_inv in Hheader
    as (ts & os & ps & en & co & Hts & _ & _ & _ & _ & ->).
  cbn [hd_timestamp hd_magic hd_checksum] in *.
  rewrite Htime in Hts. apply struct_pack_Ok in Hts as [_ ->].
  change (int_to_bytes_big 8 1711275520)
    with ([x00; x00; x00; x00; x65] ++ [xff; xfe] ++ [x00]) in Hembed.
  set (pre := MAGIC ++ [x00; x00; x00; x00; x65]).
  set (tail := [x00] ++ (os ++ ps ++ en ++ co ++ take 16 (sha256_digest data)) ++ payload).
  replace ((MAGIC ++ ([x00; x00; x00; x00; x65] ++ [xff; xfe] ++ [x00]) ++ os ++ ps ++ en
              ++ co ++ take 16 (sha256_digest data)) ++ payload)
    with (pre ++ [xff; xfe] ++ tail) in Hembed
    by (unfold pre, tail; by rewrite <- !app_assoc).
  clearbody tail.
  destruct (decide (length (flat (load_image image)) * bits
                    < 8 * length (pre ++ [xff; xfe] ++ tail) + 16)%nat) as [Hcap|Hcap].
  { by rewrite _lsb_embed_secure_capacity in Hembed. }
  rewrite _lsb_embed_secure_stream in Hembed by lia.
  assert (flat stego = embed_stream bits
            (bits_of_bytes (pre ++ [xff; xfe] ++ tail) ++ END_MARKER)
            (flat (load_image image))) as Hflat
    by (by apply (f_equal (λ r, match r with Ok a => flat a | Raise _ => [] end)) in Hembed).
  clear Hembed. unfold extract_data_secure.
  rewrite bool_decide_eq_false_2 by done. cbn [array mbind result_bind].
  rewrite _lsb_extract_secure_bind, Hflat.
  destruct (embed_stream_read bits
              (bits_of_bytes (pre ++ [xff; xfe] ++ tail) ++ END_MARKER)
              (flat (load_image image)) Hb) as [t Ht].
  { rewrite length_app, length_bits_of_bytes. cbn [length END_MARKER]. lia. }
  rewrite Ht, !bits_of_bytes_app, <- !app_assoc.
  change (bits_of_bytes [xff; xfe]) with END_MARKER.
  rewrite cut_at_marker_payload by by vm_compute.
  by rewrite to_bytes_bits_of_bytes.
Qed.
End entry_points.

(** * The permuted embedding loop *)

(** Samples the loop does not visit keep their value. *)
Lemma embed_loop_frame (bits : nat) (binary_data : bitstring) (indices : list nat)
    (flat_img out : list Z) (data_index i : nat) :
  embed_loop bits binary_data indices flat_img data_index = Ok out →
  i ∉ indices → out !! i = flat_img !! i.
Proof.
  revert flat_img data_index.
  induction indices as [|idx indices IH]; intros flat_img data_index Hloop Hi.
  - by injection Hloop as <-.
  - apply not_elem_of_cons in Hi as [Hne Hi]. cbn [embed_loop] in Hloop.
    case_bool_decide; [by injection Hloop as <-|].
    destruct (flat_img !! idx) as [v|]; [|done].
    apply IH in Hloop; [|done]. rewrite Hloop.
    destruct (slice _ _ _); [done|]. by rewrite list_lookup_insert_ne.
Qed.

(** Reading the low bits back in visiting order returns the embedded stream:
    the reading a position-ordered extractor would do. *)
Lemma embed_loop_read (bits : nat) (binary_data : bitstring) (indices : list nat)
    (flat_img out : list Z) (data_index : nat) :
  (1 ≤ bits)%nat → NoDup indices →
  embed_loop bits binary_data indices flat_img data_index = Ok out →
  (length (drop data_index binary_data) ≤ length indices * bits)%nat →
  ∃ t, read_back bits indices out = drop data_index binary_data ++ t.
Proof.
  intros Hb. revert flat_img data_index.
  induction indices as [|idx indices IH]; intros flat_img data_index Hnd Hloop Hlen.
  - simpl in Hlen. assert (length (drop data_index binary_data) = 0%nat) as Hd by lia.
    apply nil_length_inv in Hd as ->. by exists [].
  - apply NoDup_cons in Hnd as [Hidx Hnd]. cbn [embed_loop] in Hloop.
    case_bool_decide as Hend.
    { rewrite drop_ge by lia. by eexists. }
    destruct (flat_img !! idx) as [v|] eqn:Hv; [|done].
    rewrite slice_take_drop in Hloop.
    assert (length (drop data_index binary_data) ≠ 0%nat) as Hne
      by (rewrite length_drop; lia).
    destruct (take bits (drop data_index binary_data)) as [|c chunk] eqn:Hchunk.
    { destruct (drop data_index binary_data); [done|]. destruct bits; [lia|done]. }
    rewrite <- Hchunk in Hloop.
    pose proof (embed_loop_frame _ _ _ _ _ _ idx Hloop Hidx) as Hout.
    rewrite list_lookup_insert_eq in Hout by (by eapply lookup_lt_Some).
    change (out !! idx
            = Some (write_lsb bits v (take bits (drop data_index binary_data)))) in Hout.
    destruct (IH _ _ Hnd Hloop) as [t Ht].
    { rewrite <- drop_drop, length_drop. simpl in Hlen. lia. }
    unfold read_back in *. rewrite bind_cons, Ht.
    rewrite (list_lookup_total_correct _ _ _ Hout).
    rewrite lsb_string_write_lsb by (rewrite ?length_take; lia).
    unfold ljust. rewrite <- drop_drop.
    exists (replicate (bits - length (take bits (drop data_index binary_data))) false ++ t).
    destruct (decide (bits ≤ length (drop data_index binary_data))%nat) as [Hle|Hgt].
    + rewrite length_take, Nat.min_l, Nat.sub_diag by done. simpl replicate.
      rewrite app_nil_r, app_assoc, take_drop. done.
    + rewrite (drop_ge (drop _ _)), take_ge by lia. by rewrite <- !app_assoc.
Qed.

(** Bits past the capacity of the visited samples are never looked at. *)
Lemma embed_loop_take (bits k : nat) (binary_data : bitstring) (indices : list nat)
    (flat_img : list Z) (data_index : nat) :
  (1 ≤ bits)%nat → (data_index + length indices * bits ≤ k)%nat →
  embed_loop bits (take k binary_data) indices flat_img data_index
  = embed_loop bits binary_data indices flat_img data_index.
Proof.
  intros Hb. revert flat_img data_index.
  induction indices as [|idx indices IH]; intros flat_img data_index Hk; [done|].
  cbn [embed_loop]. simpl length in Hk.
  rewrite !slice_take_drop.
  assert (take bits (drop data_index (take k binary_data))
          = take bits (drop data_index binary_data)) as ->.
  { replace k with (data_index + (k - data_index))%nat at 1 by lia.
    rewrite <- take_drop_commute, take_take. f_equal. lia. }
  rewrite length_take.
  destruct (decide (length binary_data ≤ data_index)%nat) as [Hend|Hend].
  - by rewrite !bool_decide_eq_true_2 by lia.
  - rewrite !bool_decide_eq_false_2 by lia.
    destruct (flat_img !! idx); [|done].
    destruct (take bits (drop data_index binary_data)); apply IH; lia.
Qed.

Lemma bits_of_bytes_inj (a b : bytes) : bits_of_bytes a = bits_of_bytes b → a = b.
Proof.
  intros Heq. by rewrite <- (to_bytes_bits_of_bytes a), Heq, to_bytes_bits_of_bytes.
Qed.

Lemma int_to_bytes_big_inj (n : nat) (u v : Z) :
  0 ≤ u < 256 ^ Z.of_nat n → 0 ≤ v < 256 ^ Z.of_nat n →
  int_to_bytes_big n u = int_to_bytes_big n v → u = v.
Proof.
  intros Hu Hv Heq.
  by rewrite <- (int_from_to_bytes_big n u), Heq, int_from_to_bytes_big.
Qed.

Section permuted_embed.
Context `{Externals}.

(** The framed bytes start with the magic and the timestamp. *)
Lemma prepare_data_prefix (w : world) (data : bytes) (password : string) (framed : bytes) :
  _prepare_data_with_security w data password = Ok framed →
  0 ≤ time_time w < 256 ^ 8 ∧
  ∃ tail, framed = (MAGIC ++ int_to_bytes_big 8 (time_time w)) ++ tail.
Proof.
  intros (header & payload & -> & Hheader & _)%prepare_data_inv.
  unfold _create_secure_header in Hheader.
  apply pack_header_inv in Hheader
    as (ts & os & ps & en & co & Hts & _ & _ & _ & _ & ->).
  cbn [hd_timestamp hd_magic hd_checksum] in *.
  apply struct_pack_Ok in Hts as [Hts ->]. split; [done|].
  eexists. by rewrite <- !app_assoc.
Qed.

(** Whatever the libraries return, as long as the generator yields a
    permutation and the carrier has room for the first 17 framed bytes: two
    permuted embeds of the same input made at different clock seconds never
    return the same buffer. *)
Lemma permuted_embed_depends_on_clock (w1 w2 : world) (image : image) (data : bytes)
    (password : string) (bits : nat) (stego1 stego2 : ndarray) :
  permutation_ok →
  (136 ≤ length (flat (load_image image)) * bits)%nat →
  time_time w1 ≠ time_time w2 →
  embed_data_secure w1 (Some image) data password bits "LSB_RANDOM" = Ok stego1 →
  embed_data_secure w2 (Some image) data password bits "LSB_RANDOM" = Ok stego2 →
  stego1 ≠ stego2.
Proof.
  intros Hperm Hcap Htime Hembed1 Hembed2 Heq. subst stego2. apply Htime.
  assert (∀ w, embed_data_secure w (Some image) data password bits "LSB_RANDOM"
               = Ok stego1 →
          0 ≤ time_time w < 256 ^ 8 ∧
          take 136 (read_back bits
                  (rng_permutation (seed_of password) (length (flat (load_image image))))
                  (flat stego1))
          = bits_of_bytes (MAGIC ++ int_to_bytes_big 8 (time_time w))) as Hrun.
  { intros w ([Hb _] & _ & framed & Hprep & Hembed)%embed_data_secure_inv.
    rewrite bool_decide_eq_true_2 in Hembed by done.
    unfold _lsb_random_embed in Hembed. cbv zeta in Hembed.
    destruct (embed_loop bits _ _ _ 0) as [out|] eqn:Hloop; [|done].
    cbn [mbind result_bind] in Hembed.
    assert (flat stego1 = out) as ->
      by (by apply (f_equal (λ r, match r with Ok a => flat a | Raise _ => [] end))
            in Hembed).
    destruct (prepare_data_prefix _ _ _ _ Hprep) as [Hrange [tail ->]].
    split; [done|].
    set (n := length (flat (load_image image))) in *.
    set (indices := rng_permutation (seed_of password) n) in *.
    assert (length indices = n) as Hlen
      by (unfold indices;
          by rewrite (Permutation_length (Hperm (seed_of password) n)), length_seq).
    assert (NoDup indices) as Hnd
      by (unfold indices; rewrite (Hperm (seed_of password) n); apply NoDup_seq).
    set (head := MAGIC ++ int_to_bytes_big 8 (time_time w)) in *.
    assert (length (bits_of_bytes head) = 136%nat) as Hhead
      by (unfold head; rewrite length_bits_of_bytes, length_app,
            length_int_to_bytes_big; done).
    (* the loop only looks at the first [n * bits] bits of the stream *)
    rewrite <- (embed_loop_take bits (n * bits)) in Hloop
      by (done || rewrite Hlen; lia).
    destruct (embed_loop_read _ _ _ _ _ 0 Hb Hnd Hloop) as [t Ht].
    { rewrite drop_0, length_take, Hlen. lia. }
    rewrite Ht, drop_0, bits_of_bytes_app, <- !app_assoc.
    rewrite take_app_le by (rewrite length_take, !length_app, Hhead; lia).
    rewrite take_take, Nat.min_l by lia.
    by rewrite take_app_length' by done. }
  destruct (Hrun w1 Hembed1) as [Hr1 H1], (Hrun w2 Hembed2) as [Hr2 H2].
  rewrite H1 in H2. apply bits_of_bytes_inj, app_inv_head in H2.
  by apply (int_to_bytes_big_inj 8).
Qed.
End permuted_embed.

(** With a permutation for indices the permuted embedder always returns: it
    has no failure of its own, whatever the size of the payload. *)
Lemma random_embed_returns `{Externals} (img_array : ndarray) (data : bytes)
    (bits : nat) (password : string) :
  permutation_ok →
  ∃ stego, _lsb_random_embed img_array data bits password = Ok stego ∧
           shape stego = shape img_array ∧
           length (flat stego) = length (flat img_array).
Proof.
  intros Hperm. unfold _lsb_random_embed.
  destruct (embed_loop_in_range bits (bits_of_bytes data ++ END_MARKER)
              (rng_permutation (seed_of password) (length (flat img_array)))
              (flat img_array) 0) as (out & -> & Hlen).
  { by apply permutation_in_range. }
  by exists (reshape out img_array).
Qed.

(** * The unpacking chain *)

Lemma length_slice {A} (i j : nat) (l : list A) :
  (i ≤ j ≤ length l)%nat → length (slice i j l) = (j - i)%nat.
Proof. intros Hij. unfold slice. rewrite length_take, length_drop. lia. Qed.

(** With 32 bytes at hand every fixed-offset field is there: parsing the
    header cannot raise. *)
Lemma unpack_header_total (extracted_bytes : bytes) :
  (32 ≤ length extracted_bytes)%nat → ∃ h, unpack_header extracted_bytes = Ok h.
Proof.
  intros Hlen. unfold unpack_header, struct_unpack.
  rewrite !bool_decide_eq_true_2 by (rewrite length_slice; lia).
  cbn [mbind result_bind]. by eexists.
Qed.

(** What makes the [try] block of [_process_extracted_data] raise: the
    envelope had been recognised, and the exception comes from the missing
    cipher library, from the decryption or from the decompression. *)
Lemma process_try_raises `{Externals} (extracted_bytes : bytes) (password : string)
    (e : exn) :
  process_try extracted_bytes password = Raise e →
  ((32 ≤ length extracted_bytes)%nat ∧ slice 0 9 extracted_bytes = MAGIC) ∧
  ((CRYPTO_AVAILABLE = false ∧ password ≠ "" ∧ e = ImportError) ∨
   (password ≠ "" ∧ e = ValueError "Decryption failed") ∨
   (∃ d, zlib_decompress d = Raise e)).
Proof.
  unfold process_try.
  case_bool_decide as Hshort; [done|].
  case_bool_decide as Hmagic; [done|].
  destruct (unpack_header_total extracted_bytes) as [h ->]; [lia|].
  cbn [mbind result_bind]. intros Hres.
  split; [split; [lia | done]|].
  destruct (bool_decide (hd_encrypted h ≠ 0) && nonempty password) eqn:Henc.
  - apply andb_true_iff in Henc as [_ Hpw]. apply bool_decide_eq_true in Hpw.
    unfold CryptoManager in Hres.
    destruct CRYPTO_AVAILABLE eqn:Hcrypto; cbn [mbind result_bind] in Hres.
    + unfold decrypt, _decrypt_aes_gcm in Hres.
      destruct (gcm_decrypt_and_verify _ _ _ _) as [d1|]; cbn [mbind result_bind] in Hres.
      * right; right. destruct (bool_decide (hd_compressed h ≠ 0)); [|done].
        destruct (zlib_decompress d1) eqn:Hz; [done|].
        cbn [mbind result_bind] in Hres. exists d1. congruence.
      * right; left. split; [done | congruence].
    + left. split; [done|]. split; [done | congruence].
  - cbn [mbind result_bind] in Hres. right; right.
    destruct (bool_decide (hd_compressed h ≠ 0)); [|done].
    destruct (zlib_decompress _) eqn:Hz; [done|].
    cbn [mbind result_bind] in Hres. eexists. rewrite Hz. congruence.
Qed.

(** * The claims *)

(** ** C1: round trip *)

(** C1 as amended.  For every non-empty payload D, password P and bit depth b
    in 1..4, with the sequential technique (any technique name other than
    ["LSB_RANDOM"]), when packing D succeeds, the bits of the framed bytes do
    not contain the end-marker pattern and the carrier has room for them and
    the marker, embedding succeeds and extracting from the embedded buffer
    with the same password, bit depth and technique returns exactly D, with
    the integrity flag set.  The libraries are assumed to invert each other
    (decompress after compress, decrypt after encrypt under a 32-byte key and
    a 12-byte nonce), the key derivation and the random source to return as
    many bytes as asked, and the digest to have 32 bytes. *)
Theorem C1_roundtrip_sequential `{Externals} (w : world) (image : image) (data : bytes)
    (password : string) (bits : nat) (technique : string) (framed : bytes)
    (stego_mode : string) :
  zlib_inverse → pbkdf2_length → gcm_inverse → sha256_length → random_length w →
  data ≠ [] → bits ∈ [1; 2; 3; 4]%nat → technique ≠ "LSB_RANDOM" →
  _prepare_data_with_security w data password = Ok framed →
  find_sub END_MARKER (bits_of_bytes framed) = None →
  (8 * length framed + 16 ≤ length (flat (load_image image)) * bits)%nat →
  ∃ stego,
    embed_data_secure w (Some image) data password bits technique = Ok stego ∧
    extract_data_secure (Some {| mode := stego_mode; array := stego |})
                        password bits technique
    = Ok (data, info_secure (time_time w) (Z.of_nat (length data))
                  (nonempty password) true true).
Proof.
  intros Hzlib Hkey Hgcm Hsha Hrand Hdata Hbits Htech Hprep Hfree Hcap.
  apply valid_bits_range in Hbits.
  set (stego := reshape (embed_stream bits (bits_of_bytes framed ++ END_MARKER)
                           (flat (load_image image))) (load_image image)).
  assert (_lsb_embed_secure (load_image image) framed bits = Ok stego) as Hembed
    by (apply _lsb_embed_secure_stream; [lia | done]).
  exists stego. split.
  - by rewrite (embed_data_secure_sequential w image data password bits technique framed).
  - unfold extract_data_secure. cbn [array].
    rewrite bool_decide_eq_false_2 by done. cbn [mbind result_bind].
    rewrite (lsb_roundtrip (load_image image) stego framed bits) by (done || lia).
    by rewrite (process_prepared w data password framed).
Qed.

(** The payload "Hi" under the password "pw" at depth 3 in a carrier of 300
    samples. *)
Lemma C1_roundtrip_sequential_witness :
  ∃ stego,
    @embed_data_secure toy (toy_world 1700000000) (Some (flat_image 100 200))
      [x48; x69] "pw" 3 "LSB" = Ok stego ∧
    @extract_data_secure toy (Some {| mode := "RGB"; array := stego |}) "pw" 3 "LSB"
    = Ok ([x48; x69], info_secure 1700000000 2 true true true).
Proof.
  eapply (@C1_roundtrip_sequential toy (toy_world 1700000000) (flat_image 100 200)
            [x48; x69] "pw" 3 "LSB" _ "RGB").
  - exact toy_zlib_inverse.
  - exact toy_pbkdf2_length.
  - exact toy_gcm_inverse.
  - exact toy_sha256_length.
  - exact (toy_random_length 1700000000).
  - discriminate.
  - right; right; left.
  - discriminate.
  - vm_compute. reflexivity.
  - vm_compute. reflexivity.
  - apply Nat.leb_le. vm_compute. reflexivity.
Defined.

(** On 2024-03-24 10:18:40 UTC the clock reads 1711275520 = 0x65FFFE00: the
    timestamp field of the header holds the bytes FF FE, the end-marker
    pattern.  The carrier has room (600 bits for 384), embedding succeeds, and
    extraction stops at the timestamp and returns the first 14 header bytes
    instead of the payload. *)
Lemma C1_counterexample :
  let w := toy_world 1711275520 in
  let D := [x48; x69] in
  @zlib_inverse toy ∧ @pbkdf2_length toy ∧ @gcm_inverse toy ∧ @sha256_length toy ∧
  random_length w ∧
  ∃ framed stego,
    @_prepare_data_with_security toy w D "" = Ok framed ∧
    (8 * length framed + 16 ≤ length (flat (@load_image toy (flat_image 100 200))) * 2)%nat ∧
    @embed_data_secure toy w (Some (flat_image 100 200)) D "" 2 "LSB" = Ok stego ∧
    @extract_data_secure toy (Some {| mode := "RGB"; array := stego |}) "" 2 "LSB"
    = Ok (MAGIC ++ [x00; x00; x00; x00; x65], info_legacy).
Proof.
  intros w D.
  split; [exact toy_zlib_inverse|]. split; [exact toy_pbkdf2_length|].
  split; [exact toy_gcm_inverse|].
  split; [exact toy_sha256_length|]. split; [exact (toy_random_length _)|].
  eexists _, _. split; [vm_compute; reflexivity|].
  split; [apply Nat.leb_le; vm_compute; reflexivity|].
  split; [vm_compute; reflexivity|]. vm_compute. reflexivity.
Qed.

(** The permuted technique does not round-trip either: the embedder walks the
    permutation, the extractor reads in index order. *)
Lemma roundtrip_fails_permuted :
  ∃ stego r,
    @embed_data_secure toy (toy_world 1700000000) (Some (flat_image 100 200))
      [x48; x69] "pw" 2 "LSB_RANDOM" = Ok stego ∧
    @extract_data_secure toy (Some {| mode := "RGB"; array := stego |}) "pw" 2 "LSB_RANDOM"
    = Ok r ∧ r.1 ≠ [x48; x69].
Proof.
  eexists _, _. split; [vm_compute; reflexivity|].
  split; [vm_compute; reflexivity|]. cbn [fst]. discriminate.
Qed.

(** ** C2: the capacity guard *)

(** C2 at a failing input.  A carrier of 3 samples offers 3 bits at depth 1;
    one payload byte and the marker need 24.  The sequential embedder raises
    the capacity error.  The permuted embedder has no such check: whatever the
    libraries are it raises no [ValueError], and with the reversal for
    permutation it returns the buffer with the first three bits of the stream
    written into it.  The same holds one level up, in [embed_data_secure]. *)
Theorem C2_permuted_embed_has_no_capacity_guard :
  let img := array (flat_image 1 200) in
  let data := [x41] in
  (length (flat img) * 1 < 8 * length data + 16)%nat ∧
  _lsb_embed_secure img data 1 = Raise (ValueError "Insufficient capacity") ∧
  @_lsb_random_embed toy img data 1 "pw"
  = Ok {| shape := [1; 1; 3]; flat := [200; 201; 200] |} ∧
  (∀ (E : Externals) (password msg : string),
     @_lsb_random_embed E img data 1 password ≠ Raise (ValueError msg)) ∧
  @embed_data_secure toy (toy_world 1700000000) (Some (flat_image 1 200)) data "pw" 1 "LSB"
  = Raise (ValueError "Insufficient capacity") ∧
  @embed_data_secure toy (toy_world 1700000000) (Some (flat_image 1 200)) data "pw" 1
    "LSB_RANDOM"
  = Ok {| shape := [1; 1; 3]; flat := [200; 201; 200] |}.
Proof.
  intros img data. split; [simpl; lia|]. split; [reflexivity|]. split; [reflexivity|].
  split; [|split; vm_compute; reflexivity].
  intros E password msg. unfold _lsb_random_embed.
  destruct (embed_loop _ _ _ _ _) as [out|e] eqn:Hloop; [done|].
  apply embed_loop_raises in Hloop as ->. done.
Qed.

(** ** C3: unpacking never raises *)

(** C3.  For every extracted byte string and password,
    [_process_extracted_data], with its two handlers written out and free to
    let an exception pass, returns a pair and never raises.  The pair is the
    result of the parse/decrypt/decompress chain when the chain succeeds.
    When the chain raises, the envelope had been recognised (32 bytes or
    more, with the magic tag) and the exception is that of a missing cipher
    library, of a failed decryption or of a failed decompression, never one
    of the header parse; the answer is then the raw decompression of the
    untouched extracted bytes, flagged as legacy, and when that fails too,
    the extracted bytes verbatim with an info record holding success=false
    and the exception of the first failure. *)
Theorem C3_unpack_never_raises `{Externals} (extracted_bytes : bytes) (password : string) :
  ∃ r,
    _process_extracted_data_result extracted_bytes password = Ok r ∧
    r = _process_extracted_data extracted_bytes password ∧
    match process_try extracted_bytes password with
    | Ok r' => r = r'
    | Raise e =>
        (((32 ≤ length extracted_bytes)%nat ∧ slice 0 9 extracted_bytes = MAGIC) ∧
         ((CRYPTO_AVAILABLE = false ∧ password ≠ "" ∧ e = ImportError) ∨
          (password ≠ "" ∧ e = ValueError "Decryption failed") ∨
          (∃ d, zlib_decompress d = Raise e))) ∧
        match zlib_decompress extracted_bytes with
        | Ok decompressed => r = (decompressed, info_legacy_success)
        | Raise _ => r = (extracted_bytes, info_failure e)
        end
    end.
Proof.
  unfold _process_extracted_data_result, _process_extracted_data, try_except.
  destruct (process_try extracted_bytes password) as [r|e] eqn:Htry.
  - by exists r.
  - apply process_try_raises in Htry.
    destruct (zlib_decompress extracted_bytes) as [decompressed|e'];
      cbn [mbind result_bind]; by eexists.
Qed.

(** ** C4: header round trip *)

(** C4.  For every choice of header fields that fit their encodings (a 9-byte
    magic, an 8-byte timestamp, 4-byte sizes, one-byte flags, a 16-byte
    checksum), packing succeeds, yields exactly 43 bytes, and parsing those
    bytes at the fixed offsets gives back every field. *)
Theorem C4_header_roundtrip (h : header_data) :
  header_ok h →
  ∃ header, pack_header h = Ok header ∧ length header = 43%nat ∧
            unpack_header header = Ok h.
Proof.
  intros Hok. destruct (pack_header_Ok h Hok) as [header Hpack].
  destruct Hok as (Hm & _ & _ & _ & _ & _ & Hck).
  destruct (unpack_pack_header h header [] Hm Hck Hpack) as [Hlen Hun].
  rewrite app_nil_r in Hun. by exists header.
Qed.

(** A header as the engine builds it for a 38-byte payload. *)
Lemma C4_header_roundtrip_witness :
  let h := {| hd_magic := MAGIC; hd_timestamp := 1700000000;
              hd_original_size := 38; hd_processed_size := 46;
              hd_encrypted := 0; hd_compressed := 1;
              hd_checksum := replicate 16 xab |} in
  header_ok h ∧
  ∃ header, pack_header h = Ok header ∧ length header = 43%nat ∧
            unpack_header header = Ok h.
Proof.
  intros h.
  assert (header_ok h) as Hok by (unfold header_ok; simpl; lia).
  split; [exact Hok | exact (C4_header_roundtrip h Hok)].
Defined.

(** ** C5: the permuted extractor *)

(** C5.  For every pixel buffer, bit depth and password, provided the seeded
    generator returns a permutation of the sample indices, the permuted
    extractor returns exactly what the sequential extractor returns on the
    same buffer and bit depth: the extracted bits are filed under the sample's
    own index, so the visiting order and hence the password have no effect. *)
Theorem C5_random_extract_is_sequential `{Externals} (img_array : ndarray) (bits : nat)
    (password : string) :
  permutation_ok →
  _lsb_random_extract img_array bits password = Ok (_lsb_extract_secure img_array bits).
Proof.
  intros Hperm. unfold _lsb_random_extract.
  rewrite random_extract_loop_all by done. cbn [mbind result_bind].
  by rewrite mjoin_fmap_bind, _lsb_extract_secure_bind.
Qed.

(** Twelve samples read along the reversed indices. *)
Lemma C5_random_extract_is_sequential_witness :
  let img := array (flat_image 4 201) in
  @permutation_ok toy ∧
  @_lsb_random_extract toy img 2 "secret" = Ok (_lsb_extract_secure img 2).
Proof.
  intros img. split; [exact toy_permutation_ok|].
  exact (@C5_random_extract_is_sequential toy img 2 "secret" toy_permutation_ok).
Defined.

(** ** C6: determinism of the permuted embed *)

(** C6 as amended.  For every payload, carrier, bit depth, password and
    technique (the permuted technique with a non-empty password among them),
    two runs of embed on the same input that read the same clock second and
    draw the same 12 nonce bytes return the same result, byte for byte. *)
Theorem C6_embed_deterministic_given_clock_and_nonce `{Externals} (w1 w2 : world)
    (file : option image) (data : bytes) (password : string) (bits : nat)
    (technique : string) :
  time_time w1 = time_time w2 →
  get_random_bytes w1 12 = get_random_bytes w2 12 →
  embed_data_secure w1 file data password bits technique
  = embed_data_secure w2 file data password bits technique.
Proof.
  intros Htime Hnonce.
  unfold embed_data_secure, _prepare_data_with_security, _create_secure_header,
    encrypt, _encrypt_aes_gcm.
  by rewrite Htime, Hnonce.
Qed.

(** Two random sources that agree on the 12-byte draw only. *)
Lemma C6_embed_deterministic_given_clock_and_nonce_witness :
  let w1 := {| time_time := 1700000000; get_random_bytes n := replicate n x00 |} in
  let w2 := {| time_time := 1700000000;
               get_random_bytes n := if decide (n = 12%nat) then replicate n x00
                                     else replicate n xff |} in
  w1 ≠ w2 ∧
  @embed_data_secure toy w1 (Some (flat_image 200 200)) [x48; x69] "pw" 2 "LSB_RANDOM"
  = @embed_data_secure toy w2 (Some (flat_image 200 200)) [x48; x69] "pw" 2 "LSB_RANDOM".
Proof.
  intros w1 w2. split.
  - intros Heq. apply (f_equal (λ w, get_random_bytes w 1)) in Heq. discriminate Heq.
  - apply (@C6_embed_deterministic_given_clock_and_nonce toy w1 w2); reflexivity.
Defined.

(** Two runs one second apart: the timestamp in the header differs, and so
    does the stego buffer. *)
Lemma C6_counterexample :
  ∃ stego1 stego2,
    @embed_data_secure toy (toy_world 1700000000) (Some (flat_image 200 200))
      [x48; x69] "pw" 2 "LSB_RANDOM" = Ok stego1 ∧
    @embed_data_secure toy (toy_world 1700000001) (Some (flat_image 200 200))
      [x48; x69] "pw" 2 "LSB_RANDOM" = Ok stego2 ∧
    stego1 ≠ stego2.
Proof.
  eexists _, _. split; [vm_compute; reflexivity|].
  split; [vm_compute; reflexivity|]. discriminate.
Qed.

(** ** C7: capacity analysis *)

Lemma capacity_analysis_lookup (n : Z) (b : Z) :
  b ∈ [1; 2; 3; 4] →
  foldl (λ (acc : gmap string capacity_entry) bit_depth,
           <[capacity_key bit_depth :=
               {| ce_bytes := (n * bit_depth - 256) `div` 8;
                  ce_bits_used := bit_depth |}]> acc)
        ∅ [1; 2; 3; 4] !! capacity_key b
  = Some {| ce_bytes := (n * b - 256) `div` 8; ce_bits_used := b |}.
Proof.
  intros Hb. cbn [foldl].
  repeat (apply elem_of_cons in Hb as [->|Hb]);
    [| | | |by apply elem_of_nil in Hb];
    repeat first [ apply lookup_insert_eq
                 | rewrite lookup_insert_ne by done ].
Qed.

Lemma analyze_capacity_advice (image : image) (height width : Z) (dims : list Z) :
  shape (array image) = height :: width :: dims →
  ∃ a, analyze_capacity image = Ok a ∧
       capacity_analysis a =
       foldl (λ (acc : gmap string capacity_entry) bit_depth,
                <[capacity_key bit_depth :=
                    {| ce_bytes := (size (array image) * bit_depth - 256) `div` 8;
                       ce_bits_used := bit_depth |}]> acc)
             ∅ [1; 2; 3; 4] ∧
       security_recommendations a =
       if bool_decide (1000000 < height * width)
       then ["Use 1-2 bit LSB for better stealth in large images"]
       else ["Use 2-4 bit LSB for optimal capacity in small images"].
Proof.
  intros Hshape. unfold analyze_capacity, index. rewrite Hshape.
  cbn [lookup list_lookup mbind result_bind]. by eexists.
Qed.

(** C7 as amended.  [analyze_capacity] is a function of the image alone and,
    on every image array of [sampleCount] samples with at least two
    dimensions, reports for each bit depth [b] in 1..4 under the key
    ["<b>_bit_lsb"] the byte capacity [floor((sampleCount*b - 256)/8)]; it
    recommends 1-2 bits when the pixel count [height*width] (channels not
    counted) exceeds 1,000,000 and 2-4 bits otherwise. *)
Theorem C7_analyze_capacity (image : image) (height width : Z) (dims : list Z) :
  wf_array (array image) →
  shape (array image) = height :: width :: dims →
  let sampleCount := Z.of_nat (length (flat (array image))) in
  ∃ a, analyze_capacity image = Ok a ∧
       (∀ b, b ∈ [1; 2; 3; 4] →
             capacity_analysis a !! capacity_key b
             = Some {| ce_bytes := (sampleCount * b - 256) `div` 8;
                       ce_bits_used := b |}) ∧
       security_recommendations a =
       if bool_decide (1000000 < height * width)
       then ["Use 1-2 bit LSB for better stealth in large images"]
       else ["Use 2-4 bit LSB for optimal capacity in small images"].
Proof.
  intros [Hsize _] Hshape sampleCount.
  destruct (analyze_capacity_advice image height width dims Hshape)
    as (a & Ha & Hcap & Hrec).
  exists a. split; [done|]. split; [|done].
  intros b Hb. rewrite Hcap. unfold sampleCount. rewrite Hsize.
  by apply capacity_analysis_lookup.
Qed.

(** A 1 by 100 RGB image: 300 samples, 100 pixels. *)
Lemma C7_analyze_capacity_witness :
  let image := flat_image 100 0 in
  ∃ a, analyze_capacity image = Ok a ∧
       (∀ b, b ∈ [1; 2; 3; 4] →
             capacity_analysis a !! capacity_key b
             = Some {| ce_bytes := (300 * b - 256) `div` 8; ce_bits_used := b |}) ∧
       security_recommendations a
       = ["Use 2-4 bit LSB for optimal capacity in small images"].
Proof.
  intros image. apply (C7_analyze_capacity image 1 100 [3]).
  - split; [reflexivity | apply Forall_replicate; lia].
  - reflexivity.
Defined.

(** A 600 by 600 RGB image has 1,080,000 samples, more than 1,000,000, and
    is advised 2-4 bits. *)
Lemma C7_counterexample :
  let image :=
    {| mode := "RGB";
       array := {| shape := [600; 600; 3]; flat := replicate (Z.to_nat 1080000) 0 |} |} in
  wf_array (array image) ∧
  1000000 < size (array image) ∧
  ∃ a, analyze_capacity image = Ok a ∧
       security_recommendations a
       = ["Use 2-4 bit LSB for optimal capacity in small images"].
Proof.
  intros image. split; [|split].
  - split.
    + cbn [array image flat]. rewrite length_replicate, Z2Nat.id by lia. reflexivity.
    + apply Forall_replicate. lia.
  - reflexivity.
  - destruct (analyze_capacity_advice image 600 600 [3] eq_refl) as (a & Ha & _ & Hrec).
    by exists a.
Qed.

(** ** C8: what the sequential embedder changes *)

(** C8.  For every sequential embed with bit depth [b] in 1..4 that fits the
    capacity of a buffer of [uint8] samples, the result has the shape and
    length of the carrier, every sample at an index of at least
    [ceil((8*len(data)+16)/b)] is unmodified, and every sample keeps the value
    of its high [8-b] bits (and stays a [uint8]). *)
Theorem C8_sequential_frame (img_array stego : ndarray) (data : bytes) (b : nat) :
  (1 ≤ b ≤ 4)%nat →
  Forall (λ v, 0 ≤ v < 256) (flat img_array) →
  _lsb_embed_secure img_array data b = Ok stego →
  shape stego = shape img_array ∧
  length (flat stego) = length (flat img_array) ∧
  (∀ i, ((8 * length data + 16 + b - 1) / b ≤ i)%nat →
        flat stego !! i = flat img_array !! i) ∧
  (∀ i v v', flat img_array !! i = Some v → flat stego !! i = Some v' →
             Z.shiftr v' (Z.of_nat b) = Z.shiftr v (Z.of_nat b) ∧ 0 ≤ v' < 256).
Proof.
  intros Hb Hrange Hembed.
  destruct (decide (length (flat img_array) * b < 8 * length data + 16)%nat) as [Hcap|Hcap].
  { by rewrite _lsb_embed_secure_capacity in Hembed. }
  rewrite _lsb_embed_secure_stream in Hembed by lia. injection Hembed as <-.
  cbn [reshape shape flat]. split; [done|]. split; [apply length_embed_stream|]. split.
  - intros i Hi. apply embed_stream_untouched.
    rewrite length_app, length_bits_of_bytes. cbn [length END_MARKER].
    apply ceil_div_le; lia.
  - intros i v v' Hv Hv'.
    assert (0 ≤ v < 256) as Hr by (by eapply (proj1 (Forall_lookup _ _) Hrange)).
    split; [by eapply embed_stream_high|].
    assert (Forall (λ v, 0 ≤ v < 256)
              (embed_stream b (bits_of_bytes data ++ END_MARKER) (flat img_array))) as Hout
      by (apply embed_stream_range; [lia | done]).
    by eapply (proj1 (Forall_lookup _ _) Hout).
Qed.

(** One byte at depth 1 in 30 samples: 24 samples are rewritten, 6 are left. *)
Lemma C8_sequential_frame_witness :
  let img := array (flat_image 10 201) in
  let stego := {| shape := [1; 10; 3];
                  flat := [201; 200; 200; 200; 200; 200; 200; 201; 201; 201; 201;
                           201; 201; 201; 201; 201; 201; 201; 201; 201; 201; 201;
                           201; 200; 201; 201; 201; 201; 201; 201] |} in
  shape stego = shape img ∧
  length (flat stego) = length (flat img) ∧
  (∀ i, ((8 * length [x81] + 16 + 1 - 1) / 1 ≤ i)%nat → flat stego !! i = flat img !! i) ∧
  (∀ i v v', flat img !! i = Some v → flat stego !! i = Some v' →
             Z.shiftr v' (Z.of_nat 1) = Z.shiftr v (Z.of_nat 1) ∧ 0 ≤ v' < 256).
Proof.
  intros img stego. apply (C8_sequential_frame img stego [x81] 1).
  - lia.
  - apply Forall_replicate. lia.
  - reflexivity.
Defined.

(** ** C9: the sequential extractor *)

(** C9.  For every pixel buffer and bit depth [b] from 1 to 8 (a sample has
    eight bits; the engine offers 1 to 4), the sequential extractor returns the bytes read eight bits at a time, most significant
    bit first and without a trailing partial byte, from the stream of the low
    [b] bits of the samples in index order, cut at the start of the first
    occurrence of the end marker, or taken whole when the marker never
    occurs. *)
Theorem C9_sequential_extract (img_array : ndarray) (b : nat) :
  (1 ≤ b ≤ 8)%nat →
  ∃ n, marker_cut (spec_bitstream b (flat img_array)) n ∧
       _lsb_extract_secure img_array b =
       spec_bytes (take n (spec_bitstream b (flat img_array))).
Proof.
  intros [Hb _]. rewrite _lsb_extract_secure_bind, to_bytes_spec.
  assert (flat img_array ≫= lsb_string b = spec_bitstream b (flat img_array)) as ->.
  { unfold spec_bitstream. induction (flat img_array) as [|v l IH]; [done|].
    by rewrite !bind_cons, IH, lsb_string_low_bits. }
  destruct (cut_at_marker_spec (spec_bitstream b (flat img_array))) as (n & Hn & ->).
  by exists n.
Qed.

(** Nine samples at depth 2, the marker starting at bit 1. *)
Lemma C9_sequential_extract_witness :
  let img := {| shape := [1; 3; 3];
                flat := [253; 255; 255; 255; 255; 255; 255; 255; 252] |} in
  (1 ≤ 2 ≤ 8)%nat ∧
  ∃ n, marker_cut (spec_bitstream 2 (flat img)) n ∧
       _lsb_extract_secure img 2 = spec_bytes (take n (spec_bitstream 2 (flat img))).
Proof.
  intros img. split; [lia | apply (C9_sequential_extract img 2); lia].
Defined.

(** ** C10: an encrypted envelope and no password *)

(** C10.  For every extracted envelope with the magic tag whose header has the
    encrypted flag set to 1, unpacking with the empty password never calls the
    cipher: the [processed_size] bytes after the header go, still encrypted,
    to decompression (when the compressed flag is set) and to the checksum
    comparison; no missing-password error exists. *)
Theorem C10_no_password_no_decrypt `{Externals} (extracted_bytes : bytes) (h : header_data) :
  (32 ≤ length extracted_bytes)%nat →
  slice 0 9 extracted_bytes = MAGIC →
  unpack_header extracted_bytes = Ok h →
  hd_encrypted h = 1 →
  process_try extracted_bytes "" =
  (let data_part := slice 43 (43 + Z.to_nat (hd_processed_size h)) extracted_bytes in
   data_part ← (if bool_decide (hd_compressed h ≠ 0) then zlib_decompress data_part
                else Ok data_part);
   Ok (data_part,
       info_secure (hd_timestamp h) (hd_original_size h) true
         (bool_decide (hd_compressed h ≠ 0))
         (bool_decide (hd_checksum h = take 16 (sha256_digest data_part))))).
Proof.
  intros Hlen Hmagic Hunpack Henc. unfold process_try.
  rewrite bool_decide_eq_false_2 by lia.
  rewrite bool_decide_eq_false_2 by (intros Hne; apply Hne, Hmagic).
  rewrite Hunpack. cbn [mbind result_bind]. rewrite Henc.
  rewrite (bool_decide_eq_true_2 (1 ≠ 0)) by done.
  replace (nonempty "") with false by done. cbn [andb mbind result_bind]. done.
Qed.

(** An envelope whose header has the encrypted flag set and whose three
    payload bytes do not decompress: unpacked without a password, the payload
    goes to decompression as it is and both fallbacks follow. *)
Lemma C10_no_password_no_decrypt_witness :
  let extracted_bytes :=
    MAGIC ++ [x00; x00; x00; x00; x65; x53; xf1; x00] ++ [x00; x00; x00; x02]
          ++ [x00; x00; x00; x03] ++ [x01] ++ [x01]
          ++ replicate 16 x00 ++ [x69; x48; x78] in
  let h := {| hd_magic := MAGIC; hd_timestamp := 1700000000; hd_original_size := 2;
              hd_processed_size := 3; hd_encrypted := 1; hd_compressed := 1;
              hd_checksum := replicate 16 x00 |} in
  @process_try toy extracted_bytes "" = Raise zlib_error ∧
  @_process_extracted_data toy extracted_bytes ""
  = (extracted_bytes, info_failure zlib_error).
Proof.
  intros extracted_bytes h.
  assert (@process_try toy extracted_bytes "" = Raise zlib_error) as Htry.
  { rewrite (@C10_no_password_no_decrypt toy extracted_bytes h);
      [reflexivity | simpl; lia | reflexivity | reflexivity | reflexivity]. }
  split; [exact Htry|]. unfold _process_extracted_data. rewrite Htry. reflexivity.
Defined.

(** * Further properties of the engine and its helpers *)

(** * More on the bit codec *)

Lemma occurs_at_length (s : bitstring) (p : nat) :
  occurs_at END_MARKER s p → (p + 16 ≤ length s)%nat.
Proof.
  unfold occurs_at. intros Ho. apply (f_equal length) in Ho.
  rewrite length_take, length_drop in Ho.
  change (length END_MARKER) with 16%nat in Ho. lia.
Qed.

Lemma occurs_at_app (s rest : bitstring) (j : nat) :
  (j + 16 ≤ length s)%nat →
  occurs_at END_MARKER (s ++ rest) j ↔ occurs_at END_MARKER s j.
Proof.
  intros Hj. unfold occurs_at. rewrite drop_app_le by lia.
  rewrite take_app_le by (rewrite length_drop; simpl; lia). done.
Qed.

(** An occurrence of the marker inside the payload bits stays the first one
    whatever follows. *)
Lemma find_sub_marker_app (s rest : bitstring) (p : nat) :
  find_sub END_MARKER s = Some p → find_sub END_MARKER (s ++ rest) = Some p.
Proof.
  intros [Ho Hmin]%find_sub_Some. pose proof (occurs_at_length _ _ Ho) as Hp.
  apply find_sub_first.
  - by apply occurs_at_app.
  - intros j Hj Hoj. apply (Hmin j Hj). apply occurs_at_app in Hoj; [done | lia].
Qed.

Lemma div8_step (p : nat) : (8 ≤ p)%nat → (p / 8 = S ((p - 8) / 8))%nat.
Proof.
  intros Hp. replace p with ((p - 8) + 1 * 8)%nat at 1 by lia.
  rewrite Nat.div_add by lia. lia.
Qed.

Lemma spec_bytes_take_bits (d : bytes) (p : nat) :
  spec_bytes (take p (bits_of_bytes d)) = take (p / 8) d.
Proof.
  revert p. induction d as [|x d IH]; intros p.
  - change (bits_of_bytes []) with (@nil bool). by rewrite !take_nil.
  - change (bits_of_bytes (x :: d))
      with (format_b 8 (Z_of_byte x) ++ bits_of_bytes d).
    assert (length (format_b 8 (Z_of_byte x)) = 8%nat) as Hx by by destruct x.
    destruct (decide (8 ≤ p)%nat) as [Hp|Hp].
    + rewrite take_app_ge by lia. rewrite Hx, spec_bytes_format, IH.
      by rewrite (div8_step p Hp).
    + rewrite Nat.div_small by lia. rewrite spec_bytes_short; [done|].
      rewrite length_take. lia.
Qed.

Lemma lsb_embed_secure_Ok (img_array stego : ndarray) (data : bytes) (bits : nat) :
  (1 ≤ bits)%nat →
  _lsb_embed_secure img_array data bits = Ok stego →
  (8 * length data + 16 ≤ length (flat img_array) * bits)%nat ∧
  stego = reshape (embed_stream bits (bits_of_bytes data ++ END_MARKER) (flat img_array))
                  img_array.
Proof.
  intros Hb Hembed.
  destruct (decide (length (flat img_array) * bits < 8 * length data + 16)%nat)
    as [Hcap|Hcap].
  { by rewrite _lsb_embed_secure_capacity in Hembed. }
  rewrite _lsb_embed_secure_stream in Hembed by lia. split; [lia | congruence].
Qed.

(** X1.  Sequential extraction after sequential embedding returns a prefix of
    the embedded bytes: all of them when their bits do not contain the end
    marker, and otherwise the whole bytes before the first occurrence of the
    marker in them. *)
Theorem X1_extract_embed_prefix (img_array stego : ndarray) (data : bytes) (bits : nat) :
  (1 ≤ bits)%nat →
  _lsb_embed_secure img_array data bits = Ok stego →
  _lsb_extract_secure stego bits =
  match find_sub END_MARKER (bits_of_bytes data) with
  | Some p => take (p / 8) data
  | None => data
  end.
Proof.
  intros Hb [Hcap ->]%lsb_embed_secure_Ok; [|done].
  rewrite _lsb_extract_secure_bind. unfold reshape; cbn [flat].
  destruct (embed_stream_read bits (bits_of_bytes data ++ END_MARKER)
              (flat img_array) Hb) as [t Ht].
  { rewrite length_app, length_bits_of_bytes. simpl. lia. }
  rewrite Ht, <- app_assoc.
  destruct (find_sub END_MARKER (bits_of_bytes data)) as [p|] eqn:Hfind.
  - unfold cut_at_marker. rewrite (find_sub_marker_app _ _ p Hfind).
    apply find_sub_Some in Hfind as [Ho _]. apply occurs_at_length in Ho.
    rewrite take_app_le by lia. by rewrite to_bytes_spec, spec_bytes_take_bits.
  - rewrite cut_at_marker_payload by done. apply to_bytes_bits_of_bytes.
Qed.

Lemma X1_extract_embed_prefix_witness :
  _lsb_extract_secure
    {| shape := [1; 20; 3];
       flat := embed_stream 2 (bits_of_bytes [x41; xff; xfe; x42] ++ END_MARKER)
                 (replicate 60 200) |} 2
  = [x41].
Proof.
  apply (X1_extract_embed_prefix (array (flat_image 20 200)) _ [x41; xff; xfe; x42] 2).
  - lia.
  - reflexivity.
Defined.

(** * Re-embedding *)

Lemma land_mask_small (b : nat) (l : Z) :
  0 ≤ l < 2 ^ Z.of_nat b →
  Z.land l (Z.shiftl (Z.shiftr 255 (Z.of_nat b)) (Z.of_nat b)) = 0.
Proof.
  intros Hl. rewrite <- (Z.mod_small l (2 ^ Z.of_nat b)) by lia.
  rewrite <- Z.land_ones by lia. rewrite <- Z.land_assoc.
  rewrite (Z.land_comm (Z.ones _)), Z.land_ones by lia.
  rewrite Z.shiftl_mul_pow2 by lia. rewrite Z.mod_mul by lia.
  apply Z.land_0_r.
Qed.

Lemma write_lsb_overwrite (b : nat) (v : Z) (c1 c2 : bitstring) :
  (length c1 ≤ b)%nat → write_lsb b (write_lsb b v c1) c2 = write_lsb b v c2.
Proof.
  intros Hc. unfold write_lsb. f_equal.
  pose proof (int2_bounds (ljust b c1)) as Hi. rewrite length_ljust in Hi by done.
  rewrite Z.land_lor_distr_l, (land_mask_small b (int2 (ljust b c1))) by done.
  rewrite Z.lor_0_r, <- Z.land_assoc. by rewrite Z.land_diag.
Qed.

Lemma embed_stream_overwrite (b : nat) (s1 s2 : bitstring) (buf : list Z) :
  (length s1 ≤ length s2)%nat →
  embed_stream b s2 (embed_stream b s1 buf) = embed_stream b s2 buf.
Proof.
  revert s1 s2. induction buf as [|v buf IH]; intros s1 s2 Hlen; [done|].
  destruct s1 as [|c1 s1]; [done|].
  destruct s2 as [|c2 s2]; [simpl in Hlen; lia|].
  cbn [embed_stream]. rewrite write_lsb_overwrite by (rewrite length_take; lia).
  f_equal. apply IH. rewrite !length_drop. simpl in *. lia.
Qed.

(** X2.  Embedding a payload over an earlier sequential embed of a payload
    that is not longer gives exactly what embedding it in the original
    carrier gives (the same buffer, or the same capacity error): nothing of
    the earlier payload is left, and embedding twice is embedding once. *)
Theorem X2_embed_overwrites (img_array stego1 : ndarray) (data1 data2 : bytes)
    (bits : nat) :
  (1 ≤ bits)%nat → (length data1 ≤ length data2)%nat →
  _lsb_embed_secure img_array data1 bits = Ok stego1 →
  _lsb_embed_secure stego1 data2 bits = _lsb_embed_secure img_array data2 bits.
Proof.
  intros Hb Hlen [_ ->]%lsb_embed_secure_Ok; [|done].
  destruct (decide (length (flat img_array) * bits < 8 * length data2 + 16)%nat)
    as [Hcap|Hcap].
  - rewrite !_lsb_embed_secure_capacity; [done | done |].
    cbn [reshape flat]. by rewrite length_embed_stream.
  - rewrite !_lsb_embed_secure_stream;
      [|done | lia | done | cbn [reshape flat]; rewrite length_embed_stream; lia].
    cbn [reshape flat shape]. rewrite embed_stream_overwrite; [done|].
    rewrite !length_app, !length_bits_of_bytes. lia.
Qed.

Lemma X2_embed_overwrites_witness :
  let img := array (flat_image 20 200) in
  let stego1 := reshape (embed_stream 2 (bits_of_bytes [x41] ++ END_MARKER) (flat img)) img in
  _lsb_embed_secure stego1 [x42; x43] 2 = _lsb_embed_secure img [x42; x43] 2.
Proof.
  intros img stego1. apply (X2_embed_overwrites img stego1 [x41] [x42; x43] 2).
  - lia.
  - simpl. lia.
  - reflexivity.
Defined.

(** * What any embed may change *)

Lemma embed_loop_changes (bits : nat) (binary_data : bitstring) (indices : list nat)
    (flat0 flat_img out : list Z) (data_index : nat) :
  (bits ≤ 8)%nat →
  Forall2 (lsb_changed bits) flat0 flat_img →
  embed_loop bits binary_data indices flat_img data_index = Ok out →
  Forall2 (lsb_changed bits) flat0 out.
Proof.
  intros Hb. revert flat_img data_index.
  induction indices as [|idx indices IH]; intros flat_img data_index Hinv Hloop.
  - by injection Hloop as <-.
  - cbn [embed_loop] in Hloop. case_bool_decide; [by injection Hloop as <-|].
    destruct (flat_img !! idx) as [v|] eqn:Hv; [|done].
    destruct (slice data_index (data_index + bits) binary_data) as [|c chunk] eqn:Hc;
      [by eapply IH|].
    eapply IH; [|exact Hloop].
    assert (length (c :: chunk) ≤ bits)%nat as Hlen.
    { rewrite <- Hc. unfold slice. rewrite length_take. lia. }
    destruct (Forall2_lookup_r _ _ _ _ _ Hinv Hv) as (v0 & Hv0 & [Hhigh Hrange]).
    rewrite <- (list_insert_id flat0 idx v0) by done.
    apply Forall2_insert; [done|].
    change (lsb_changed bits v0 (write_lsb bits v (c :: chunk))). split.
    + by rewrite write_lsb_high.
    + by apply write_lsb_range.
Qed.

Lemma lsb_changed_refl (b : nat) (l : list Z) :
  Forall (λ v, 0 ≤ v < 256) l → Forall2 (lsb_changed b) l l.
Proof.
  intros Hl. apply Forall2_same_length_lookup. split; [done|].
  intros i v v' Hv Hv'. assert (v' = v) as -> by congruence. split; [done|].
  by eapply (proj1 (Forall_lookup _ _) Hl).
Qed.

Lemma lsb_changed_distance (b : nat) (v v' : Z) :
  lsb_changed b v v' → Z.abs (v' - v) < 2 ^ Z.of_nat b.
Proof.
  intros [Hhigh _]. rewrite !Z.shiftr_div_pow2 in Hhigh by lia.
  assert (0 < 2 ^ Z.of_nat b) by lia.
  pose proof (Z.div_mod v (2 ^ Z.of_nat b) ltac:(lia)).
  pose proof (Z.div_mod v' (2 ^ Z.of_nat b) ltac:(lia)).
  pose proof (Z.mod_pos_bound v (2 ^ Z.of_nat b) ltac:(lia)).
  pose proof (Z.mod_pos_bound v' (2 ^ Z.of_nat b) ltac:(lia)).
  rewrite Hhigh in *. lia.
Qed.

Section any_technique.
Context `{Externals}.

(** X3.  Whatever the technique, the password and the libraries, a successful
    [embed_data_secure] on a carrier of [uint8] samples returns an array of
    the carrier's shape and length in which every sample is still a [uint8],
    has kept the bits above its low [bits] ones, and so differs from the
    carrier's sample by less than [2^bits]. *)
Theorem X3_embed_distortion (w : world) (image : image) (data : bytes)
    (password : string) (bits : nat) (technique : string) (stego : ndarray) :
  Forall (λ v, 0 ≤ v < 256) (flat (load_image image)) →
  embed_data_secure w (Some image) data password bits technique = Ok stego →
  shape stego = shape (load_image image) ∧
  Forall2 (λ v v', Z.shiftr v' (Z.of_nat bits) = Z.shiftr v (Z.of_nat bits) ∧
                   0 ≤ v' < 256 ∧ Z.abs (v' - v) < 2 ^ Z.of_nat bits)
          (flat (load_image image)) (flat stego).
Proof.
  intros Hrange ([Hb1 Hb4] & _ & framed & _ & Hembed)%embed_data_secure_inv.
  assert (∃ indices out,
            embed_loop bits (bits_of_bytes framed ++ END_MARKER) indices
              (flat (load_image image)) 0 = Ok out ∧
            stego = reshape out (load_image image)) as (indices & out & Hloop & ->).
  { case_bool_decide.
    - unfold _lsb_random_embed in Hembed. cbv zeta in Hembed.
      destruct (embed_loop bits _ _ _ 0) as [out|] eqn:Hloop; [|done].
      eexists _, out. split; [exact Hloop|]. cbn [mbind result_bind] in Hembed.
      congruence.
    - unfold _lsb_embed_secure in Hembed. cbv zeta in Hembed.
      case_bool_decide; [done|].
      destruct (embed_loop bits _ _ _ 0) as [out|] eqn:Hloop; [|done].
      eexists _, out. split; [exact Hloop|]. cbn [mbind result_bind] in Hembed.
      congruence. }
  split; [done|]. cbn [reshape flat].
  eapply Forall2_impl.
  - eapply (embed_loop_changes bits); [lia | by apply lsb_changed_refl | exact Hloop].
  - intros v v' Hc. pose proof (lsb_changed_distance _ _ _ Hc). by destruct Hc.
Qed.
End any_technique.

Lemma X3_embed_distortion_witness :
  ∃ stego,
    @embed_data_secure toy (toy_world 1700000000) (Some (flat_image 200 200))
      [x48; x69] "pw" 2 "LSB_RANDOM" = Ok stego ∧
    shape stego = [1; 200; 3] ∧
    Forall2 (λ v v', Z.shiftr v' 2 = Z.shiftr v 2 ∧ 0 ≤ v' < 256 ∧ Z.abs (v' - v) < 4)
            (replicate 600 200) (flat stego).
Proof.
  eexists. split; [vm_compute; reflexivity|].
  eapply (@X3_embed_distortion toy (toy_world 1700000000) (flat_image 200 200)
            [x48; x69] "pw" 2 "LSB_RANDOM").
  - apply Forall_replicate. lia.
  - vm_compute. reflexivity.
Defined.

(** * Extraction reads the low bits only *)

Lemma lsb_string_mod (bits : nat) (u v : Z) :
  u `mod` 2 ^ Z.of_nat bits = v `mod` 2 ^ Z.of_nat bits →
  lsb_string bits u = lsb_string bits v.
Proof. intros Huv. unfold lsb_string. by rewrite !land_ones_mod, Huv. Qed.

(** X4.  The sequential extractor reads nothing but the low [bits] bits: two
    arrays whose samples agree modulo [2^bits] yield the same bytes. *)
Theorem X4_extract_low_bits_only (a1 a2 : ndarray) (bits : nat) :
  Forall2 (λ u v, u `mod` 2 ^ Z.of_nat bits = v `mod` 2 ^ Z.of_nat bits)
          (flat a1) (flat a2) →
  _lsb_extract_secure a1 bits = _lsb_extract_secure a2 bits.
Proof.
  intros Hlow. rewrite !_lsb_extract_secure_bind. do 2 f_equal.
  induction Hlow as [|u v l1 l2 Huv _ IH]; [done|].
  by rewrite !bind_cons, IH, (lsb_string_mod bits u v).
Qed.

Lemma X4_extract_low_bits_only_witness :
  _lsb_extract_secure {| shape := [1; 1; 3]; flat := [201; 14; 255] |} 2
  = _lsb_extract_secure {| shape := [3]; flat := [1; 2; 3] |} 2.
Proof.
  apply X4_extract_low_bits_only. simpl. repeat constructor.
Defined.

(** * How many bytes an extraction returns *)

Lemma length_spec_bytes (s : bitstring) : length (spec_bytes s) = (length s / 8)%nat.
Proof.
  rewrite <- (take_ge s (length s)) at 1 by done.
  assert (∀ n s, length s < 8 * n → length (spec_bytes s) = (length s / 8))%nat as Hn.
  { clear s. induction n as [|n IH]; intros s Hs; [lia|].
    destruct (decide (length s < 8)%nat) as [Hshort|Hlong].
    - rewrite spec_bytes_short, Nat.div_small by done. done.
    - rewrite <- (take_drop 8 s) at 1.
      rewrite spec_bytes_app8 by (rewrite length_take; lia).
      cbn [length]. rewrite IH by (rewrite length_drop; lia).
      rewrite length_drop. rewrite (div8_step (length s)) by lia. done. }
  rewrite take_ge by done. apply (Hn (S (length s))). lia.
Qed.

Lemma length_lsb_string (bits : nat) (v : Z) :
  (1 ≤ bits)%nat → length (lsb_string bits v) = bits.
Proof. intros Hb. by rewrite lsb_string_low_bits, length_low_bits. Qed.

Lemma length_bind_lsb_string (bits : nat) (l : list Z) :
  (1 ≤ bits)%nat → length (l ≫= lsb_string bits) = (length l * bits)%nat.
Proof.
  intros Hb. induction l as [|v l IH]; [done|].
  rewrite bind_cons, length_app, IH, length_lsb_string by done. simpl. lia.
Qed.

(** X5.  An extraction at a depth [bits] from 1 to 8 never returns more than
    [floor(sampleCount * bits / 8)] bytes, and returns exactly that many when
    the low bits of the buffer do not contain the end marker (the full scan). *)
Theorem X5_extract_length (img_array : ndarray) (bits : nat) :
  (1 ≤ bits ≤ 8)%nat →
  (length (_lsb_extract_secure img_array bits)
   ≤ length (flat img_array) * bits / 8)%nat ∧
  (find_sub END_MARKER (flat img_array ≫= lsb_string bits) = None →
   length (_lsb_extract_secure img_array bits)
   = (length (flat img_array) * bits / 8)%nat).
Proof.
  intros [Hb _]. rewrite _lsb_extract_secure_bind, to_bytes_spec, length_spec_bytes.
  unfold cut_at_marker.
  destruct (find_sub END_MARKER (flat img_array ≫= lsb_string bits)) as [p|] eqn:Hf.
  - split; [|done]. rewrite length_take, length_bind_lsb_string by done.
    apply Nat.Div0.div_le_mono. lia.
  - by rewrite length_bind_lsb_string.
Qed.

Lemma X5_extract_length_witness :
  (length (_lsb_extract_secure (array (flat_image 10 200)) 3) ≤ 30 * 3 / 8)%nat ∧
  (find_sub END_MARKER (flat (array (flat_image 10 200)) ≫= lsb_string 3) = None →
   length (_lsb_extract_secure (array (flat_image 10 200)) 3) = (30 * 3 / 8)%nat).
Proof.
  apply (X5_extract_length (array (flat_image 10 200)) 3). lia.
Defined.

(** * The permuted embedder, along its permutation *)

(** Once the stream is consumed the loop leaves: the indices after that are
    not visited. *)
Lemma embed_loop_app (bits : nat) (binary_data : bitstring) (visited rest : list nat)
    (flat_img : list Z) (data_index : nat) :
  (1 ≤ bits)%nat →
  (length binary_data ≤ data_index + length visited * bits)%nat →
  embed_loop bits binary_data (visited ++ rest) flat_img data_index
  = embed_loop bits binary_data visited flat_img data_index.
Proof.
  intros Hb. revert flat_img data_index.
  induction visited as [|idx visited IH]; intros flat_img data_index Hlen.
  - simpl in Hlen. destruct rest as [|idx rest]; [done|].
    cbn [app embed_loop]. by rewrite bool_decide_eq_true_2 by lia.
  - cbn [app embed_loop]. case_bool_decide; [done|].
    destruct (flat_img !! idx); [|done]. apply IH. simpl in Hlen. lia.
Qed.

Section permuted_embedder.
Context `{Externals}.

(** X6.  At a depth [bits] from 1 to 8 and with a generator that returns
    permutations, the permuted embedder returns a buffer in which the stream
    (payload bits, then the end marker) is written along the permutation
    derived from the password: reading the low [bits] bits of the result in
    that visiting order gives the stream back,
    cut to the [sampleCount * bits] bits the carrier can hold; samples whose
    position in the permutation is at or after [ceil(streamLength / bits)]
    keep their value. *)
Theorem X6_random_embed_along_permutation (img_array : ndarray) (data : bytes)
    (bits : nat) (password : string) :
  permutation_ok → (1 ≤ bits ≤ 8)%nat →
  let n := length (flat img_array) in
  let indices := rng_permutation (seed_of password) n in
  let stream := bits_of_bytes data ++ END_MARKER in
  ∃ stego,
    _lsb_random_embed img_array data bits password = Ok stego ∧
    (∃ t, read_back bits indices (flat stego) = take (n * bits) stream ++ t) ∧
    (∀ k idx, ((length stream + bits - 1) / bits ≤ k)%nat → indices !! k = Some idx →
              flat stego !! idx = flat img_array !! idx).
Proof.
  intros Hperm [Hb _] n indices stream.
  destruct (random_embed_returns img_array data bits password Hperm)
    as (stego & Hembed & _ & _).
  exists stego. split; [done|].
  unfold _lsb_random_embed in Hembed. cbv zeta in Hembed.
  fold n indices stream in Hembed.
  destruct (embed_loop bits stream indices (flat img_array) 0) as [out|] eqn:Hloop;
    [|done].
  cbn [mbind result_bind] in Hembed. injection Hembed as <-. cbn [reshape flat].
  assert (length indices = n) as Hlen
    by (unfold indices;
        by rewrite (Permutation_length (Hperm (seed_of password) n)), length_seq).
  assert (NoDup indices) as Hnd
    by (unfold indices; rewrite (Hperm (seed_of password) n); apply NoDup_seq).
  split.
  - pose proof Hloop as Hloop'.
    rewrite <- (embed_loop_take bits (n * bits)) in Hloop'
      by (done || rewrite Hlen; lia).
    destruct (embed_loop_read _ _ _ _ _ 0 Hb Hnd Hloop') as [t Ht].
    { rewrite drop_0, length_take, Hlen. lia. }
    exists t. by rewrite Ht, drop_0.
  - intros k idx Hk Hidx.
    rewrite <- (take_drop k indices) in Hloop, Hnd.
    rewrite embed_loop_app in Hloop.
    + apply (embed_loop_frame _ _ _ _ _ _ idx Hloop).
      apply NoDup_app in Hnd as (_ & Hdisj & _). intros Hin.
      apply (Hdisj idx Hin). apply list_elem_of_lookup. exists (k - length (take k indices))%nat.
      rewrite lookup_drop. rewrite <- Hidx. f_equal.
      apply lookup_lt_Some in Hidx. rewrite length_take. lia.
    + done.
    + apply lookup_lt_Some in Hidx. rewrite length_take, Nat.min_l by lia.
      simpl. apply ceil_div_le; [done | lia].
Qed.
End permuted_embedder.

Lemma X6_random_embed_along_permutation_witness :
  ∃ stego,
    @_lsb_random_embed toy (array (flat_image 20 200)) [x41] 2 "pw" = Ok stego ∧
    (∃ t, read_back 2 (reverse (seq 0 60)) (flat stego)
          = take (60 * 2) (bits_of_bytes [x41] ++ END_MARKER) ++ t) ∧
    (∀ k idx, ((length (bits_of_bytes [x41] ++ END_MARKER) + 2 - 1) / 2 ≤ k)%nat →
              reverse (seq 0 60) !! k = Some idx →
              flat stego !! idx = replicate 60 200 !! idx).
Proof.
  apply (@X6_random_embed_along_permutation toy (array (flat_image 20 200)) [x41] 2 "pw").
  - exact toy_permutation_ok.
  - lia.
Defined.

(** * Unpacking: which path is taken *)

Section unpacking.
Context `{Externals}.

(** X7.  [_process_extracted_data] answers [{'legacy_mode': True}] exactly
    when fewer than 32 bytes were extracted or the first nine are not the
    magic tag, and then returns the extracted bytes untouched: in this case
    nothing is decompressed, decrypted or checked, whatever the password. *)
Theorem X7_legacy_mode (extracted_bytes : bytes) (password : string) :
  ((length extracted_bytes < 32)%nat ∨ slice 0 9 extracted_bytes ≠ MAGIC) ↔
  _process_extracted_data extracted_bytes password = (extracted_bytes, info_legacy).
Proof.
  unfold _process_extracted_data, process_try. split.
  - intros [Hshort|Hmagic].
    + by rewrite bool_decide_eq_true_2.
    + case_bool_decide; [done|]. by rewrite bool_decide_eq_true_2.
  - case_bool_decide as Hshort; [by left|].
    case_bool_decide as Hmagic; [by right|]. intros Hres. exfalso.
    destruct (unpack_header extracted_bytes) as [h|]; cbn [mbind result_bind] in Hres.
    + destruct (if _ && _ then _ else _) as [d1|]; cbn [mbind result_bind] in Hres.
      * destruct (if bool_decide (hd_compressed h ≠ 0) then _ else _) as [d2|];
          cbn [mbind result_bind] in Hres; [done|].
        by destruct (zlib_decompress extracted_bytes).
      * by destruct (zlib_decompress extracted_bytes).
    + by destruct (zlib_decompress extracted_bytes).
Qed.

(** X8.  When the chain of [_process_extracted_data] fails, the envelope had
    been recognised (32 bytes or more, magic tag present) and the failure is a
    missing cipher library, a failed decryption or a failed decompression:
    parsing the header fields never raises. *)
Theorem X8_unpack_failure_causes (extracted_bytes : bytes) (password : string) (e : exn) :
  process_try extracted_bytes password = Raise e →
  ((32 ≤ length extracted_bytes)%nat ∧ slice 0 9 extracted_bytes = MAGIC) ∧
  ((CRYPTO_AVAILABLE = false ∧ password ≠ "" ∧ e = ImportError) ∨
   (password ≠ "" ∧ e = ValueError "Decryption failed") ∨
   (∃ d, zlib_decompress d = Raise e)).
Proof. apply process_try_raises. Qed.

(** X9.  Whenever [_process_extracted_data] reports a structured success, the
    reported timestamp, size and flags are the ones stored at the fixed
    offsets of the extracted bytes, and the integrity flag is true exactly
    when the stored 16 checksum bytes equal the first 16 bytes of the SHA-256
    of the data it returns; a mismatch is reported, the data is returned all
    the same. *)
Theorem X9_reported_fields (extracted_bytes data : bytes) (password : string)
    (timestamp original_size : Z) (encrypted compressed integrity_verified : bool) :
  _process_extracted_data extracted_bytes password
  = (data, info_secure timestamp original_size encrypted compressed integrity_verified) →
  ∃ h, unpack_header extracted_bytes = Ok h ∧
       timestamp = hd_timestamp h ∧ original_size = hd_original_size h ∧
       encrypted = bool_decide (hd_encrypted h ≠ 0) ∧
       compressed = bool_decide (hd_compressed h ≠ 0) ∧
       integrity_verified
       = bool_decide (slice 27 43 extracted_bytes = take 16 (sha256_digest data)).
Proof.
  unfold _process_extracted_data.
  destruct (process_try extracted_bytes password) as [r|e] eqn:Htry;
    [|by destruct (zlib_decompress extracted_bytes)].
  intros ->. unfold process_try in Htry.
  case_bool_decide; [done|]. case_bool_decide; [done|].
  destruct (unpack_header extracted_bytes) as [h|] eqn:Hh; [|done].
  cbn [mbind result_bind] in Htry.
  destruct (if _ && _ then _ else _) as [d1|]; [|done]. cbn [mbind result_bind] in Htry.
  destruct (if bool_decide (hd_compressed h ≠ 0) then _ else _) as [d2|]; [|done].
  cbn [mbind result_bind] in Htry. injection Htry as <- <- <- <- <- <-.
  exists h. repeat (split; [done|]).
  assert (hd_checksum h = slice 27 43 extracted_bytes) as ->; [|done].
  unfold unpack_header in Hh.
  repeat match type of Hh with
  | context [struct_unpack ?n ?b] => destruct (struct_unpack n b); [|done]
  end.
  cbn [mbind result_bind] in Hh. by injection Hh as <-.
Qed.
End unpacking.

Lemma X8_unpack_failure_causes_witness :
  let extracted_bytes :=
    MAGIC ++ [x00; x00; x00; x00; x65; x53; xf1; x00] ++ [x00; x00; x00; x02]
          ++ [x00; x00; x00; x03] ++ [x00] ++ [x01]
          ++ replicate 16 x00 ++ [x69; x48; x78] in
  ((32 ≤ length extracted_bytes)%nat ∧ slice 0 9 extracted_bytes = MAGIC) ∧
  ((@CRYPTO_AVAILABLE toy = false ∧ "" ≠ "" ∧ zlib_error = ImportError) ∨
   ("" ≠ "" ∧ zlib_error = ValueError "Decryption failed") ∨
   (∃ d, @zlib_decompress toy d = Raise zlib_error)).
Proof.
  intros extracted_bytes.
  apply (@X8_unpack_failure_causes toy extracted_bytes "" zlib_error). reflexivity.
Defined.

Lemma X9_reported_fields_witness :
  let extracted_bytes :=
    MAGIC ++ [x00; x00; x00; x00; x65; x53; xf1; x00] ++ [x00; x00; x00; x02]
          ++ [x00; x00; x00; x03] ++ [x00] ++ [x01]
          ++ replicate 16 x00 ++ [x78; x48; x69] in
  ∃ h, unpack_header extracted_bytes = Ok h ∧
       1700000000 = hd_timestamp h ∧ 2 = hd_original_size h ∧
       false = bool_decide (hd_encrypted h ≠ 0) ∧
       true = bool_decide (hd_compressed h ≠ 0) ∧
       false = bool_decide (slice 27 43 extracted_bytes
                            = take 16 (@sha256_digest toy [x48; x69])).
Proof.
  intros extracted_bytes.
  apply (@X9_reported_fields toy extracted_bytes [x48; x69] "" 1700000000 2
           false true false).
  reflexivity.
Defined.

(** * Capacity: the analysis and the guard *)

Lemma analyze_capacity_entry (image : image) (a : analysis) (bits : nat) :
  wf_array (array image) → (1 ≤ bits ≤ 4)%nat →
  analyze_capacity image = Ok a →
  capacity_analysis a !! capacity_key (Z.of_nat bits)
  = Some {| ce_bytes := (Z.of_nat (length (flat (array image))) * Z.of_nat bits - 256) `div` 8;
            ce_bits_used := Z.of_nat bits |}.
Proof.
  intros [Hsize _] Hbits Ha.
  assert (∃ height width dims, shape (array image) = height :: width :: dims)
    as (height & width & dims & Hshape).
  { unfold analyze_capacity, index in Ha.
    destruct (shape (array image)) as [|height [|width dims]]; [done..|].
    by eexists _, _, _. }
  destruct (analyze_capacity_advice image height width dims Hshape)
    as (a' & Ha' & Hcap & _).
  assert (a' = a) as -> by congruence.
  rewrite Hcap, Hsize. apply capacity_analysis_lookup.
  rewrite !elem_of_cons. lia.
Qed.

(** X10.  The capacity analysis is safe for the sequential embedder on an
    image that is embedded as it is stored (mode RGB or RGBA, so that the
    analysis and the embedder see the same array): when the framed bytes that
    [_prepare_data_with_security] builds, the 43-byte header followed by the
    processed payload, are no longer than the byte capacity reported for the
    bit depth, [embed_data_secure] returns a buffer.  The capacity bounds the
    framed bytes, not the caller's data. *)
Theorem X10_capacity_analysis_is_safe `{Externals} (w : world) (image : image)
    (a : analysis) (bits : nat) (entry : capacity_entry) (data framed : bytes)
    (password technique : string) :
  wf_array (array image) → mode image ∈ ["RGB"; "RGBA"] →
  (1 ≤ bits ≤ 4)%nat → data ≠ [] → technique ≠ "LSB_RANDOM" →
  analyze_capacity image = Ok a →
  capacity_analysis a !! capacity_key (Z.of_nat bits) = Some entry →
  _prepare_data_with_security w data password = Ok framed →
  Z.of_nat (length framed) ≤ ce_bytes entry →
  ∃ stego, embed_data_secure w (Some image) data password bits technique = Ok stego.
Proof.
  intros Hwf Hmode Hbits Hdata Htech Ha Hentry Hprep Hfits.
  rewrite (embed_data_secure_sequential w image data password bits technique framed)
    by done.
  assert (load_image image = array image) as ->.
  { unfold load_image. by rewrite bool_decide_eq_false_2 by (intros Hn; by apply Hn). }
  rewrite (analyze_capacity_entry image a bits Hwf Hbits Ha) in Hentry.
  injection Hentry as <-. cbn [ce_bytes] in Hfits.
  eexists. apply _lsb_embed_secure_stream; [lia|].
  pose proof (Z.mul_div_le
    (Z.of_nat (length (flat (array image))) * Z.of_nat bits - 256) 8 ltac:(lia)).
  nia.
Qed.

(** Three bytes without a password at depth 4: 47 framed bytes against a
    reported capacity of 118. *)
Lemma X10_capacity_analysis_is_safe_witness :
  ∃ stego,
    @embed_data_secure toy (toy_world 1700000000) (Some (flat_image 100 200))
      [x41; x42; x43] "" 4 "LSB" = Ok stego.
Proof.
  destruct (analyze_capacity (flat_image 100 200)) as [a|] eqn:Ha;
    [|vm_compute in Ha; discriminate Ha].
  destruct (@_prepare_data_with_security toy (toy_world 1700000000) [x41; x42; x43] "")
    as [framed|] eqn:Hprep; [|vm_compute in Hprep; discriminate Hprep].
  apply (@X10_capacity_analysis_is_safe toy (toy_world 1700000000) (flat_image 100 200)
           a 4 {| ce_bytes := 118; ce_bits_used := 4 |} [x41; x42; x43] framed "" "LSB").
  - split; [reflexivity | apply Forall_replicate; lia].
  - constructor.
  - lia.
  - discriminate.
  - discriminate.
  - exact Ha.
  - vm_compute in Ha. injection Ha as <-. reflexivity.
  - exact Hprep.
  - vm_compute in Hprep. injection Hprep as <-. simpl. lia.
Defined.

(** X11.  The byte capacity reported for a bit depth is negative exactly for
    buffers that offer fewer than 256 bits at that depth. *)
Theorem X11_negative_capacity (image : image) (a : analysis) (bits : nat)
    (entry : capacity_entry) :
  wf_array (array image) → (1 ≤ bits ≤ 4)%nat →
  analyze_capacity image = Ok a →
  capacity_analysis a !! capacity_key (Z.of_nat bits) = Some entry →
  (ce_bytes entry < 0 ↔ (length (flat (array image)) * bits < 256)%nat).
Proof.
  intros Hwf Hbits Ha Hentry.
  rewrite (analyze_capacity_entry image a bits Hwf Hbits Ha) in Hentry.
  injection Hentry as <-. cbn [ce_bytes].
  pose proof (Z.div_mod
    (Z.of_nat (length (flat (array image))) * Z.of_nat bits - 256) 8 ltac:(lia)).
  pose proof (Z.mod_pos_bound
    (Z.of_nat (length (flat (array image))) * Z.of_nat bits - 256) 8 ltac:(lia)).
  nia.
Qed.

Lemma X11_negative_capacity_witness :
  (-25 < 0 ↔ (length (flat (array (flat_image 10 0))) * 2 < 256)%nat).
Proof.
  destruct (analyze_capacity (flat_image 10 0)) as [a|] eqn:Ha;
    [|vm_compute in Ha; discriminate Ha].
  apply (X11_negative_capacity (flat_image 10 0) a 2
           {| ce_bytes := -25; ce_bits_used := 2 |}).
  - split; [reflexivity | apply Forall_replicate; lia].
  - lia.
  - exact Ha.
  - vm_compute in Ha. injection Ha as <-. reflexivity.
Defined.

(** * The seed of the permutation *)

Lemma int_from_bytes_big_bounds (l : bytes) :
  0 ≤ int_from_bytes_big l < 256 ^ Z.of_nat (length l).
Proof.
  induction l as [|x l IH] using rev_ind; [by compute|].
  rewrite int_from_bytes_big_snoc, length_app. cbn [length].
  replace (Z.of_nat (length l + 1)) with (Z.succ (Z.of_nat (length l))) by lia.
  rewrite Z.pow_succ_r by lia.
  assert (0 ≤ Z_of_byte x < 256) by (destruct x; by compute).
  lia.
Qed.

(** X12.  Whatever the password and the digest, the seed handed to
    [np.random.RandomState] lies in [0, 2^32), the range it accepts. *)
Theorem X12_seed_in_range `{Externals} (password : string) :
  0 ≤ seed_of password < 2 ^ 32.
Proof.
  unfold seed_of.
  pose proof (int_from_bytes_big_bounds (take 4 (sha256_digest (encode password)))) as Hb.
  assert (256 ^ Z.of_nat (length (take 4 (sha256_digest (encode password)))) ≤ 2 ^ 32).
  { change (2 ^ 32) with (256 ^ 4). apply Z.pow_le_mono_r; [lia|].
    rewrite length_take. lia. }
  lia.
Qed.

(** * Packing: what it needs *)

Lemma pack_header_raises (h : header_data) (e : exn) :
  pack_header h = Raise e → e = struct_error.
Proof.
  assert (∀ n v e', struct_pack n v = Raise e' → e' = struct_error) as Hpack.
  { intros n v e'. unfold struct_pack. case_bool_decide; congruence. }
  unfold pack_header.
  repeat match goal with
  | |- context [struct_pack ?n ?v] =>
      destruct (struct_pack n v) eqn:?; cbn [mbind result_bind];
      [|intros [= <-]; by eapply Hpack]
  end.
  done.
Qed.

Section packing.
Context `{Externals}.

Lemma length_create_secure_header (w : world) (data payload header : bytes)
    (encrypted : bool) :
  sha256_length →
  _create_secure_header w data payload encrypted = Ok header →
  length header = 43%nat.
Proof.
  intros Hsha Hheader. unfold _create_secure_header in Hheader.
  apply (unpack_pack_header _ _ []) in Hheader as [Hlen _];
    [done | done | by cbn [hd_checksum]; rewrite length_take, Hsha].
Qed.

(** X13.  Without the cipher library ([CRYPTO_AVAILABLE] false) and with a
    non-empty password, [embed_data_secure] raises [ImportError] on every
    valid input, for every technique; with the empty password the library is
    never asked for. *)
Theorem X13_embed_without_cipher_library (w : world) (image : image) (data : bytes)
    (password : string) (bits : nat) (technique : string) :
  CRYPTO_AVAILABLE = false → (1 ≤ bits ≤ 4)%nat → data ≠ [] →
  (password ≠ "" →
   embed_data_secure w (Some image) data password bits technique = Raise ImportError) ∧
  embed_data_secure w (Some image) data "" bits technique ≠ Raise ImportError.
Proof.
  intros Hcrypto Hbits Hdata. unfold embed_data_secure.
  rewrite (proj2 (validate_inputs_Ok image data bits)) by done.
  cbn [mbind result_bind]. split.
  - intros Hpw. unfold _prepare_data_with_security, CryptoManager.
    rewrite Hcrypto. unfold nonempty. rewrite (bool_decide_eq_true_2 (password ≠ "")) by done.
    by cbn [mbind result_bind].
  - unfold _prepare_data_with_security. replace (nonempty "") with false by done.
    cbn [mbind result_bind].
    destruct (_create_secure_header w data (zlib_compress data) false) as [header|e] eqn:Hh.
    + cbn [result_bind].
      assert (∀ r : result ndarray,
                (∀ e, r = Raise e → e = IndexError ∨ ∃ msg, e = ValueError msg) →
                r ≠ Raise ImportError) as Hno.
      { intros r Hr Heq. destruct (Hr _ Heq) as [?|[? ?]]; done. }
      assert (∀ d, ∀ e, _lsb_embed_secure (load_image image) d bits = Raise e →
                        e = IndexError ∨ ∃ msg, e = ValueError msg) as Hseq.
      { intros d e. unfold _lsb_embed_secure. cbv zeta. case_bool_decide.
        - intros [= <-]. right. by eexists.
        - destruct (embed_loop _ _ _ _ _) eqn:Hloop; [done|].
          cbn [mbind result_bind]. intros [= <-].
          left. by eapply embed_loop_raises. }
      assert (∀ d, ∀ e, _lsb_random_embed (load_image image) d bits "" = Raise e →
                        e = IndexError ∨ ∃ msg, e = ValueError msg) as Hrand.
      { intros d e. unfold _lsb_random_embed. cbv zeta.
        destruct (embed_loop _ _ _ _ _) eqn:Hloop; [done|].
        cbn [mbind result_bind]. intros [= <-].
        left. by eapply embed_loop_raises. }
      destruct (bool_decide (technique = "LSB")); [apply Hno, Hseq|].
      destruct (bool_decide (technique = "LSB_RANDOM")); apply Hno; [apply Hrand | apply Hseq].
    + cbn [result_bind]. apply pack_header_raises in Hh as ->. done.
Qed.

(** X14.  A sequential embed that succeeds had room for the 43-byte header,
    the processed payload and the 16-bit end marker: the carrier offers at
    least [360 + 8 * len(payload)] bits, where the payload is the compressed
    data, encrypted under the password when one is given.  No carrier with
    fewer than 360 bits ever takes a payload. *)
Theorem X14_sequential_embed_needs_room (w : world) (image : image) (data : bytes)
    (password : string) (bits : nat) (technique : string) (stego : ndarray) :
  sha256_length → technique ≠ "LSB_RANDOM" →
  embed_data_secure w (Some image) data password bits technique = Ok stego →
  let payload :=
    if nonempty password then encrypt w (zlib_compress data) password
    else zlib_compress data in
  (360 + 8 * length payload ≤ length (flat (load_image image)) * bits)%nat.
Proof.
  intros Hsha Htech ([Hb _] & _ & framed & Hprep & Hembed)%embed_data_secure_inv.
  rewrite bool_decide_eq_false_2 in Hembed by done.
  apply lsb_embed_secure_Ok in Hembed as [Hcap _]; [|done].
  apply prepare_data_inv in Hprep as (header & payload & -> & Hheader & Hpayload).
  apply length_create_secure_header in Hheader; [|done].
  rewrite length_app in Hcap. cbv zeta.
  destruct (nonempty password); [destruct Hpayload as [_ <-] | subst payload]; lia.
Qed.
End packing.

Lemma X13_embed_without_cipher_library_witness :
  let E := {| zlib_compress := @zlib_compress toy;
              zlib_decompress := @zlib_decompress toy;
              sha256_digest := @sha256_digest toy;
              pbkdf2_hmac_sha256 := @pbkdf2_hmac_sha256 toy;
              CRYPTO_AVAILABLE := false;
              gcm_encrypt_and_digest := @gcm_encrypt_and_digest toy;
              gcm_decrypt_and_verify := @gcm_decrypt_and_verify toy;
              rng_permutation := @rng_permutation toy;
              convert_RGB := @convert_RGB toy |} in
  ("pw" ≠ "" →
   @embed_data_secure E (toy_world 1700000000) (Some (flat_image 100 200))
     [x48; x69] "pw" 2 "LSB" = Raise ImportError) ∧
  @embed_data_secure E (toy_world 1700000000) (Some (flat_image 100 200))
    [x48; x69] "" 2 "LSB" ≠ Raise ImportError.
Proof.
  intros E.
  apply (@X13_embed_without_cipher_library E (toy_world 1700000000)
           (flat_image 100 200) [x48; x69] "pw" 2 "LSB").
  - reflexivity.
  - lia.
  - discriminate.
Defined.

(** Two bytes under a password at depth 3. *)
Lemma X14_sequential_embed_needs_room_witness :
  let payload :=
    if nonempty "pw"
    then @encrypt toy (toy_world 1700000000) (@zlib_compress toy [x48; x69]) "pw"
    else @zlib_compress toy [x48; x69] in
  (360 + 8 * length payload
   ≤ length (flat (@load_image toy (flat_image 100 200))) * 3)%nat.
Proof.
  destruct (@embed_data_secure toy (toy_world 1700000000) (Some (flat_image 100 200))
              [x48; x69] "pw" 3 "LSB") as [stego|] eqn:Hembed;
    [|vm_compute in Hembed; discriminate Hembed].
  apply (@X14_sequential_embed_needs_room toy (toy_world 1700000000)
           (flat_image 100 200) [x48; x69] "pw" 3 "LSB" stego).
  - exact toy_sha256_length.
  - discriminate.
  - exact Hembed.
Defined.

(** * The cipher front end *)

Lemma toy_cbc_inverse : @cbc_inverse toy_cbc.
Proof.
  intros key iv d _ _. split.
  - change (Ok (reverse (reverse (d ++ [x01]))) = Ok (d ++ [x01])).
    by rewrite reverse_involutive.
  - change (toy_unpad (d ++ [x01]) = Ok d).
    unfold toy_unpad. rewrite reverse_app. cbn [reverse rev_append app].
    change (Ok (reverse (reverse d)) = Ok d). by rewrite reverse_involutive.
Qed.

Section cipher_front_end.
Context `{Externals} `{CbcExternals}.

(** X15.  For every algorithm name, [decrypt] undoes [encrypt] when both are
    given the same password and the same name: ["AES-256-GCM"] selects the
    GCM layout (nonce, tag, ciphertext), and any other name, listed or not,
    silently selects the CBC layout (IV, ciphertext). *)
Theorem X15_decrypt_encrypt_any_algorithm (w : world) (data : bytes)
    (password algorithm : string) :
  pbkdf2_length → gcm_inverse → cbc_inverse → random_length w →
  decrypt_with (encrypt_with w data password algorithm) password algorithm = Ok data ∧
  encrypt_with w data password "AES-256-GCM" = encrypt w data password ∧
  (algorithm ≠ "AES-256-GCM" →
   encrypt_with w data password algorithm
   = get_random_bytes w 16
       ++ cbc_encrypt (_derive_key password 32) (get_random_bytes w 16) (Padding_pad data)).
Proof.
  intros Hkey Hgcm Hcbc Hrand. split; [|split].
  - unfold decrypt_with, encrypt_with. case_bool_decide.
    + by apply decrypt_encrypt.
    + unfold _encrypt_aes_cbc, _decrypt_aes_cbc.
      rewrite (slice_front (get_random_bytes w 16)) by apply Hrand.
      rewrite drop_app_length' by (by rewrite Hrand).
      destruct (Hcbc (_derive_key password 32) (get_random_bytes w 16) data)
        as [-> Hunpad]; [by unfold _derive_key; rewrite Hkey | apply Hrand |].
      cbn [mbind result_bind]. by rewrite Hunpad.
  - unfold encrypt_with. by rewrite bool_decide_eq_true_2.
  - intros Halg. unfold encrypt_with. by rewrite bool_decide_eq_false_2.
Qed.
End cipher_front_end.

Lemma X15_decrypt_encrypt_any_algorithm_witness :
  @decrypt_with toy toy_cbc
    (@encrypt_with toy toy_cbc (toy_world 0) [x48; x69] "pw" "aes-256-gcm")
    "pw" "aes-256-gcm" = Ok [x48; x69].
Proof.
  apply (@X15_decrypt_encrypt_any_algorithm toy toy_cbc (toy_world 0) [x48; x69]
           "pw" "aes-256-gcm").
  - exact toy_pbkdf2_length.
  - exact toy_gcm_inverse.
  - exact toy_cbc_inverse.
  - exact (toy_random_length 0).
Defined.

(** * Generated passwords *)

Lemma toy_choice_ok : choice_ok toy_choice.
Proof.
  intros k l Hl. unfold toy_choice.
  assert (k `mod` length l < length l)%nat as Hlt.
  { apply Nat.mod_upper_bound. by destruct l. }
  destruct (lookup_lt_is_Some_2 l _ Hlt) as [c Hc]. rewrite Hc.
  by eapply list_elem_of_lookup_2.
Qed.

Lemma length_string_of_list_ascii (l : list Ascii.ascii) :
  String.length (String.string_of_list_ascii l) = length l.
Proof. induction l as [|c l IH]; [done|]. simpl. by rewrite IH. Qed.

Lemma encode_string_of_list_ascii (l : list Ascii.ascii) :
  encode (String.string_of_list_ascii l) = Ascii.byte_of_ascii <$> l.
Proof.
  unfold encode, String.list_byte_of_string.
  rewrite String.list_ascii_of_string_of_list_ascii.
  induction l as [|c l IH]; [done|]. cbn [map]. by rewrite IH.
Qed.

Lemma generated_password_parts (secrets_choice : nat → list Ascii.ascii → Ascii.ascii)
    (length : Z) :
  choice_ok secrets_choice →
  ∃ chars, generate_secure_password secrets_choice length
           = String.string_of_list_ascii chars ∧
           List.length chars = Z.to_nat length ∧
           Forall (λ c, c ∈ String.list_ascii_of_string alphabet) chars.
Proof.
  intros Hchoice. eexists. split; [done|]. split.
  - by rewrite length_fmap, length_seq.
  - apply Forall_fmap, Forall_forall. intros k _. by apply Hchoice.
Qed.

(** X16.  A generated password has exactly the requested number of
    characters (none for a request of zero or less), every one of them taken
    from the 70-character alphabet of letters, digits and [!@#$%^&*]. *)
Theorem X16_generated_password (secrets_choice : nat → list Ascii.ascii → Ascii.ascii)
    (length : Z) :
  choice_ok secrets_choice →
  String.length (generate_secure_password secrets_choice length) = Z.to_nat length ∧
  Forall (λ c, c ∈ String.list_ascii_of_string alphabet)
         (String.list_ascii_of_string (generate_secure_password secrets_choice length)).
Proof.
  intros (chars & -> & Hlen & Hall)%(generated_password_parts _ length).
  by rewrite length_string_of_list_ascii, String.list_ascii_of_string_of_list_ascii.
Qed.

Lemma X16_generated_password_witness :
  String.length (generate_secure_password toy_choice 16) = Z.to_nat 16 ∧
  Forall (λ c, c ∈ String.list_ascii_of_string alphabet)
         (String.list_ascii_of_string (generate_secure_password toy_choice 16)).
Proof. apply (X16_generated_password toy_choice 16). exact toy_choice_ok. Defined.

Lemma alphabet_ascii (c : Ascii.ascii) :
  c ∈ String.list_ascii_of_string alphabet →
  ¬ (128 ≤ Z_of_byte (Ascii.byte_of_ascii c) < 192).
Proof.
  revert c. apply Forall_forall.
  set (l := String.list_ascii_of_string alphabet). vm_compute in l. subst l.
  repeat (apply Forall_cons; split;
          [intros [Hlo _]; vm_compute in Hlo; by apply Hlo|]).
  apply Forall_nil_2.
Qed.

Lemma py_len_ascii (chars : list Ascii.ascii) :
  Forall (λ c, ¬ (128 ≤ Z_of_byte (Ascii.byte_of_ascii c) < 192)) chars →
  py_len (String.string_of_list_ascii chars) = length chars.
Proof.
  intros Hall. unfold py_len. rewrite encode_string_of_list_ascii.
  induction Hall as [|c chars Hc _ IH]; [done|].
  rewrite fmap_cons, filter_cons_True by done. simpl. by rewrite IH.
Qed.

(** X17.  A generated password of 4 to 100 characters passes
    [validate_password], alone and against itself as confirmation, and being
    non-empty it makes the engine encrypt. *)
Theorem X17_generated_password_is_accepted
    (secrets_choice : nat → list Ascii.ascii → Ascii.ascii) (length : Z) :
  choice_ok secrets_choice → 4 ≤ length ≤ 100 →
  let password := generate_secure_password secrets_choice length in
  validate_password password None = (true, "Password is valid") ∧
  validate_password password (Some password) = (true, "Password is valid") ∧
  nonempty password = true.
Proof.
  intros (chars & -> & Hlen & Hall)%(generated_password_parts _ length) Hrange.
  cbv zeta.
  assert (py_len (String.string_of_list_ascii chars) = Z.to_nat length) as Hpy.
  { rewrite py_len_ascii; [done|]. eapply Forall_impl; [exact Hall|].
    apply alphabet_ascii. }
  assert (String.string_of_list_ascii chars ≠ "") as Hne.
  { destruct chars; [simpl in Hlen; lia | done]. }
  unfold validate_password, nonempty. rewrite Hpy.
  rewrite !(bool_decide_eq_false_2 (String.string_of_list_ascii chars = "")) by done.
  rewrite !(bool_decide_eq_false_2 (Z.to_nat length < 4)%nat) by lia.
  rewrite !(bool_decide_eq_false_2 (100 < Z.to_nat length)%nat) by lia.
  rewrite bool_decide_eq_false_2 by (intros Hn; by apply Hn).
  by rewrite bool_decide_eq_true_2.
Qed.

Lemma X17_generated_password_is_accepted_witness :
  let password := generate_secure_password toy_choice 16 in
  validate_password password None = (true, "Password is valid") ∧
  validate_password password (Some password) = (true, "Password is valid") ∧
  nonempty password = true.
Proof.
  apply (X17_generated_password_is_accepted toy_choice 16); [exact toy_choice_ok | lia].
Defined.

(** * The two checks of the bit depth *)

(** X18.  The validator and the engine agree on the bit depth: for a
    non-empty payload and an existing image, [validate_lsb_bits] accepts a
    bit depth that is not negative exactly when [_validate_inputs] lets it
    pass. *)
Theorem X18_bit_depth_checks_agree (image : image) (data : bytes) (bits : nat) :
  data ≠ [] →
  ((validate_lsb_bits (Z.of_nat bits)).1 = true ↔
   _validate_inputs (Some image) data bits = Ok ()).
Proof.
  intros Hdata. rewrite validate_inputs_Ok. unfold validate_lsb_bits.
  case_bool_decide; cbn [fst]; split; try done; try lia.
  intros _. split; [lia | done].
Qed.

Lemma X18_bit_depth_checks_agree_witness :
  (validate_lsb_bits (Z.of_nat 5)).1 = true ↔
  _validate_inputs (Some (flat_image 1 0)) [x41] 5 = Ok ().
Proof.
  apply (X18_bit_depth_checks_agree (flat_image 1 0) [x41] 5). discriminate.
Defined.
